(** * Crossword generation as constraint satisfaction: [generate.py]

    A shallow embedding of the class [CrosswordCreator] of [generate.py]
    (node consistency, arc revision, AC-3, the search heuristics, the
    backtracking search and the letter grid), followed by the properties of
    it that the specification states and further ones read off the code.

    Conventions of the embedding.
    - A Python [dict] is a [gmap], iterated in the order of [map_to_list];
      a Python [set] is a [gset], iterated in the order of [elements].
      Python iterates a dictionary in insertion order and leaves the order
      of a set unspecified; here the order decides only which words are
      tried first and which of several exceptions is met first, and
      nothing proved below depends on it.
    - A Python [str] is a [string]; [w[i]] raises [IndexError] out of range.
    - A call that may raise returns a [res]; the instance attribute
      [self.domains] is threaded explicitly, and a call that mutates it
      returns the store as it is when the call ends, also when it ends by
      raising.
    - The [while] loop of [ac3] and the recursion of [backtrack] are
      structural on a fuel argument; [ac3] and [backtrack] supply enough of
      it, whatever their input ([ac3_returns], [backtrack_returns_or_raises]).
    - The module [crossword] that [generate.py] imports is not among the
      sources: variables, the overlap lookup and the neighbour sets are
      modelled from the specification. *)

From Stdlib Require Import Floats.PrimFloat.
From Stdlib Require Numbers.Cyclic.Int63.Uint63.
From Stdlib Require Import Strings.Ascii Sorting.Sorted.
From stdpp Require Import gmap strings list fin_maps fin_sets.

(** ** Results of calls *)

Inductive exn := IndexError | KeyError | TypeError.

Inductive res (A : Type) :=
  | Ret (a : A)
  | Raise (e : exn)
  | OutOfFuel.
Arguments Ret {A} a.
Arguments Raise {A} e.
Arguments OutOfFuel {A}.

#[global] Instance res_ret : MRet res := @Ret.
#[global] Instance res_bind : MBind res := λ A B f m,
  match m with
  | Ret a => f a
  | Raise e => Raise e
  | OutOfFuel => OutOfFuel
  end.

(** ** The constraint graph *)

Inductive Direction := ACROSS | DOWN.

#[global] Instance Direction_eq_dec : EqDecision Direction.
Proof. solve_decision. Defined.

(** Modelled from the spec: the class [Variable] of the module [crossword],
    which [generate.py] imports and which is not among the sources.  A slot
    is the row and column of its first cell, an orientation and a length,
    with value equality. *)
Record Var := mkVar {
  var_i : nat;
  var_j : nat;
  var_direction : Direction;
  var_length : nat
}.

#[global] Instance Var_eq_dec : EqDecision Var.
Proof. solve_decision. Defined.

#[global] Instance Var_countable : Countable Var.
Proof.
  refine (inj_countable'
    (λ v, (var_i v, var_j v, bool_decide (var_direction v = ACROSS), var_length v))
    (λ '(i, j, b, n), mkVar i j (if b then ACROSS else DOWN) n) _).
  by intros [i j [] n].
Defined.

(** Modelled from the spec: the class [Crossword] of the module [crossword]
    as far as the solver reads it: the set of variables, the vocabulary,
    and the overlap lookup, which answers [None] (no shared cell) or a pair
    of offsets. *)
Record Crossword := mkCrossword {
  variables : gset Var;
  words : list string;
  overlaps : Var → Var → option (nat * nat)
}.

(** Modelled from the spec: [Crossword.neighbors], the variables other than
    [var] that have an overlap with it. *)
Definition neighbors (cw : Crossword) (var : Var) : gset Var :=
  filter (λ v, v ≠ var ∧ is_Some (overlaps cw v var)) (variables cw).

(** ** Stores *)

Abbreviation Domains := (gmap Var (list string)).
Abbreviation Assignment := (gmap Var string).

(** [CrosswordCreator.__init__]: every variable starts with a copy of the
    whole vocabulary. *)
Definition new_domains (cw : Crossword) : Domains :=
  gset_to_gmap (words cw) (variables cw).

(** [w[i]] *)
Definition index (w : string) (i : nat) : res Ascii.ascii :=
  match String.get i w with
  | Some c => Ret c
  | None => Raise IndexError
  end.

(** [d[v]] *)
Definition getitem {V} (d : gmap Var V) (v : Var) : res V :=
  match d !! v with
  | Some x => Ret x
  | None => Raise KeyError
  end.

(** ** Sorting by a key

    [sorted(l, key=f)] and [l.sort(key=f)]: the keys are computed first, for
    every element in order; the sort is stable and compares keys with [<]
    only. *)

Fixpoint with_keys {K A} (key : A → res K) (l : list A) : res (list (K * A)) :=
  match l with
  | [] => Ret []
  | x :: l' =>
      k ← key x;
      kl ← with_keys key l';
      Ret ((k, x) :: kl)
  end.

Fixpoint insert_by_key {K A} (lt : K → K → bool) (x : K * A) (l : list (K * A))
  : list (K * A) :=
  match l with
  | [] => [x]
  | y :: l' => if lt y.1 x.1 then y :: insert_by_key lt x l' else x :: y :: l'
  end.

Fixpoint sort_by_key {K A} (lt : K → K → bool) (l : list (K * A)) : list (K * A) :=
  match l with
  | [] => []
  | x :: l' => insert_by_key lt x (sort_by_key lt l')
  end.

Definition sorted {K A} (lt : K → K → bool) (key : A → res K) (l : list A)
  : res (list A) :=
  kl ← with_keys key l;
  Ret ((sort_by_key lt kl).*2).

(** ** Binary64 scores

    [len(self.domains[v]) - len(self.crossword.neighbors(v)) * 0.001] is
    computed by Python in binary64: the two lengths are converted to
    doubles (exactly, below [2^53]), and [0.001] denotes the double nearest
    to it, [0x1.0624dd2f1a9fcp-10]. *)

Definition float_of_nat (n : nat) : PrimFloat.float :=
  PrimFloat.of_uint63 (Uint63.of_Z (Z.of_nat n)).

Definition score (remaining degree : nat) : PrimFloat.float :=
  PrimFloat.sub (float_of_nat remaining)
    (PrimFloat.mul (float_of_nat degree) 0x1.0624dd2f1a9fcp-10%float).

Section creator.
Context (cw : Crossword).

(** ** Node consistency *)

(** [enforce_node_consistency]: each domain is replaced by its words of
    the variable's length. *)
Definition enforce_node_consistency (d : Domains) : Domains :=
  map_imap (λ var ws,
    Some (filter (λ word, String.length word = var_length var) ws)) d.

(** ** Arc revision *)

(** The inner loop of [revise]: does some [y_word] agree with [x_word]?
    The scan stops at the first one that does. *)
Fixpoint has_partner (ix iy : nat) (x_word : string) (ys : list string)
  : res bool :=
  match ys with
  | [] => Ret false
  | y_word :: ys' =>
      a ← index x_word ix;
      b ← index y_word iy;
      if decide (a = b) then Ret true else has_partner ix iy x_word ys'
  end.

(** The outer loop of [revise], which builds [keep]; [ys] is
    [self.domains[y]], evaluated for each [x_word]. *)
Fixpoint revise_keep (ix iy : nat) (xs : list string) (ys : res (list string))
  : res (list string) :=
  match xs with
  | [] => Ret []
  | x_word :: xs' =>
      ys' ← ys;
      b ← has_partner ix iy x_word ys';
      keep ← revise_keep ix iy xs' ys;
      Ret (if b : bool then x_word :: keep else keep)
  end.

Definition revise (x y : Var) (d : Domains) : res bool * Domains :=
  match overlaps cw x y with
  | Some (ix, iy) =>
      match d !! x with
      | None => (Raise KeyError, d)
      | Some xs =>
          let num := length xs in
          match revise_keep ix iy xs (getitem d y) with
          | Ret keep => (Ret (bool_decide (length keep ≠ num)), <[x := keep]> d)
          | Raise e => (Raise e, d)
          | OutOfFuel => (OutOfFuel, d)
          end
      end
  | None => (Ret false, d)
  end.

(** ** AC-3 *)

Abbreviation Arc := (Var * Var)%type.

(** The worklist built when [arcs is None]. *)
Definition initial_arcs (d : Domains) : list Arc :=
  v1 ← elements (dom d); v2 ← elements (neighbors cw v1); [(v1, v2)].

(** [for z in ...: arcs.append((z, x))] on a worklist kept as a stack:
    its head is the last element of the Python list, the one that
    [arcs.pop()] takes. *)
Definition append_arcs (x : Var) (zs : list Var) (stack : list Arc) : list Arc :=
  foldl (λ st z, (z, x) :: st) stack zs.

Fixpoint ac3_loop (fuel : nat) (stack : list Arc) (d : Domains)
  : res bool * Domains :=
  match fuel with
  | 0 => (OutOfFuel, d)
  | S fuel' =>
      match stack with
      | [] => (Ret true, d)
      | (x, y) :: stack' =>
          match revise x y d with
          | (Ret true, d') =>
              match d' !! x with
              | None => (Raise KeyError, d')
              | Some xs =>
                  if decide (length xs = 0) then (Ret false, d')
                  else ac3_loop fuel'
                         (append_arcs x (elements (neighbors cw x ∖ {[y]})) stack') d'
              end
          | (Ret false, d') => ac3_loop fuel' stack' d'
          | (Raise e, d') => (Raise e, d')
          | (OutOfFuel, d') => (OutOfFuel, d')
          end
      end
  end.

(** The number of words in the store. *)
Definition store_size (d : Domains) : nat :=
  sum_list_with (λ kv, length kv.2) (map_to_list d).

(** Iterations that suffice: every iteration pops an arc, and pushes at
    most [size (variables cw)] arcs only when it removes a word. *)
Definition ac3_fuel (arcs : list Arc) (d : Domains) : nat :=
  S (length arcs + store_size d * size (variables cw)).

Definition ac3 (arcs : option (list Arc)) (d : Domains) : res bool * Domains :=
  let arcs := match arcs with None => initial_arcs d | Some l => l end in
  ac3_loop (ac3_fuel arcs d) (reverse arcs) d.

(** ** Assignments *)

Definition assignment_complete (d : Domains) (a : Assignment) : bool :=
  forallb (λ var, bool_decide (var ∈ dom a)) (elements (dom d)).

(** The inner loop of [consistent], for one [v1]; [true] stands for
    falling out of the loop. *)
Fixpoint consistent_with (v1 : Var) (w1 : string) (l : list (Var * string))
  : res bool :=
  match l with
  | [] => Ret true
  | (v2, w2) :: l' =>
      if decide (v1 = v2) then consistent_with v1 w1 l'
      else if decide (w1 = w2) then Ret false
      else match overlaps cw v1 v2 with
           | Some (i, j) =>
               c1 ← index w1 i;
               c2 ← index w2 j;
               if decide (c1 ≠ c2) then Ret false else consistent_with v1 w1 l'
           | None => consistent_with v1 w1 l'
           end
  end.

Fixpoint consistent_loop (l all : list (Var * string)) : res bool :=
  match l with
  | [] => Ret true
  | (v1, w1) :: l' =>
      if decide (String.length w1 ≠ var_length v1) then Ret false
      else
        b ← consistent_with v1 w1 all;
        if b : bool then consistent_loop l' all else Ret false
  end.

Definition consistent (a : Assignment) : res bool :=
  consistent_loop (map_to_list a) (map_to_list a).

(** ** Value ordering *)

(** [word == w or word[intersection[0]] != w[intersection[1]]] *)
Definition rules_out (intersection : option (nat * nat)) (word w : string)
  : res bool :=
  if decide (word = w) then Ret true
  else match intersection with
       | None => Raise TypeError
       | Some (i, j) =>
           c1 ← index word i;
           c2 ← index w j;
           Ret (bool_decide (c1 ≠ c2))
       end.

Fixpoint count_in_domain (intersection : option (nat * nat)) (word : string)
    (ws : list string) (count : nat) : res nat :=
  match ws with
  | [] => Ret count
  | w :: ws' =>
      b ← rules_out intersection word w;
      count_in_domain intersection word ws' (if b : bool then S count else count)
  end.

Fixpoint count_removed_loop (d : Domains) (var : Var) (word : string)
    (ns : list Var) (count : nat) : res nat :=
  match ns with
  | [] => Ret count
  | neighbor :: ns' =>
      ws ← getitem d neighbor;
      count' ← count_in_domain (overlaps cw var neighbor) word ws count;
      count_removed_loop d var word ns' count'
  end.

Definition count_removed_in_neighbors (d : Domains) (var : Var) (word : string)
    (ns : gset Var) : res nat :=
  count_removed_loop d var word (elements ns) 0.

Definition order_domain_values (d : Domains) (var : Var) (a : Assignment)
  : res (list string) :=
  let ns := neighbors cw var ∖ dom a in
  ws ← getitem d var;
  sorted Nat.ltb (λ word, count_removed_in_neighbors d var word ns) ws.

(** ** Variable selection *)

Definition select_unassigned_variable (d : Domains) (a : Assignment) : res Var :=
  let unassigned := elements (dom d ∖ dom a) in
  unassigned ← sorted PrimFloat.ltb
    (λ v, ws ← getitem d v; Ret (score (length ws) (size (neighbors cw v))))
    unassigned;
  match unassigned with
  | v :: _ => Ret v
  | [] => Raise IndexError
  end.

(** ** Backtracking search

    A call returns its result and the assignment dictionary as the call
    leaves it: the dictionary is one object, shared by all the frames and
    by the result. *)

(** The [for value in ...] loop; [rec] is the recursive call. *)
Fixpoint try_values (rec : Assignment → res (option Assignment) * Assignment)
    (var : Var) (values : list string) (a : Assignment)
  : res (option Assignment) * Assignment :=
  match values with
  | [] => (Ret None, a)
  | value :: values' =>
      let a1 := <[var := value]> a in
      match consistent a1 with
      | Ret true =>
          match rec a1 with
          | (Ret None, a2) => try_values rec var values' (delete var a2)
          | other => other
          end
      | Ret false => try_values rec var values' (delete var a1)
      | Raise e => (Raise e, a1)
      | OutOfFuel => (OutOfFuel, a1)
      end
  end.

Fixpoint backtrack_fuel (fuel : nat) (d : Domains) (a : Assignment)
  : res (option Assignment) * Assignment :=
  match fuel with
  | 0 => (OutOfFuel, a)
  | S fuel' =>
      if assignment_complete d a then (Ret (Some a), a)
      else
        match select_unassigned_variable d a with
        | Ret var =>
            match order_domain_values d var a with
            | Ret values => try_values (backtrack_fuel fuel' d) var values a
            | Raise e => (Raise e, a)
            | OutOfFuel => (OutOfFuel, a)
            end
        | Raise e => (Raise e, a)
        | OutOfFuel => (OutOfFuel, a)
        end
  end.

(** The depth of the recursion is at most the number of variables that
    are not assigned yet. *)
Definition backtrack (d : Domains) (a : Assignment)
  : res (option Assignment) * Assignment :=
  backtrack_fuel (S (size (dom d ∖ dom a))) d a.

(** ** The entry point *)

(** The calls [solve] makes, in order, each with what it returned; for
    [backtrack] also what it was called on: the store [self.domains] at
    the time of the call and the assignment passed. *)
Inductive Call :=
  | CallEnforceNodeConsistency
  | CallAc3 (r : res bool)
  | CallBacktrack (domains : Domains) (assignment : Assignment)
      (r : res (option Assignment)).

Record Run := mkRun {
  result : res (option Assignment);
  final_domains : Domains;
  calls : list Call
}.

(** [solve]: the value of [self.ac3()] is dropped; only an exception
    escaping from it keeps [backtrack] from being called. *)
Definition solve (d : Domains) : Run :=
  let d1 := enforce_node_consistency d in
  let '(r, d2) := ac3 None d1 in
  match r with
  | Ret _ =>
      let out := (backtrack d2 ∅).1 in
      mkRun out d2
        [CallEnforceNodeConsistency; CallAc3 r; CallBacktrack d2 ∅ out]
  | Raise e => mkRun (Raise e) d2 [CallEnforceNodeConsistency; CallAc3 r]
  | OutOfFuel => mkRun OutOfFuel d2 [CallEnforceNodeConsistency; CallAc3 r]
  end.

End creator.

(** ** Vocabulary of the properties *)

(** [w[i] == w2[j]] evaluates to [True]. *)
Definition letters_agree (w : string) (i : nat) (w2 : string) (j : nat) : Prop :=
  ∃ c, String.get i w = Some c ∧ String.get j w2 = Some c.

#[global] Instance letters_agree_dec w i w2 j : Decision (letters_agree w i w2 j).
Proof.
  unfold letters_agree.
  destruct (String.get i w) as [c|] eqn:Hc; [|right; by intros (? & ? & ?)].
  destruct (decide (String.get j w2 = Some c)) as [Hd|Hd]; [left; eauto|].
  right. intros (c' & ? & ?). congruence.
Defined.

(** Every domain of [d'] is a domain of [d] that lost some words. *)
Definition shrinks (d d' : Domains) : Prop :=
  dom d' = dom d ∧
  ∀ v ws ws', d !! v = Some ws → d' !! v = Some ws' →
    ws' ⊆ ws ∧ length ws' ≤ length ws.

(** The three constraints on the bound variables of an assignment. *)
Definition satisfies (cw : Crossword) (a : Assignment) : Prop :=
  ∀ v1 w1, a !! v1 = Some w1 →
    String.length w1 = var_length v1 ∧
    ∀ v2 w2, a !! v2 = Some w2 → v1 ≠ v2 →
      w1 ≠ w2 ∧
      ∀ i j, overlaps cw v1 v2 = Some (i, j) → letters_agree w1 i w2 j.

(** The bound words come from the domains of their variables. *)
Definition drawn_from (d : Domains) (a : Assignment) : Prop :=
  ∀ v w, a !! v = Some w → ∃ ws, d !! v = Some ws ∧ w ∈ ws.

(** A complete assignment drawn from the domains that satisfies the
    constraints. *)
Definition solution (cw : Crossword) (d : Domains) (a : Assignment) : Prop :=
  dom a = dom d ∧ drawn_from d a ∧ satisfies cw a.

(** Every word of a domain has the length of its variable. *)
Definition node_consistent (d : Domains) : Prop :=
  ∀ v ws w, d !! v = Some ws → w ∈ ws → String.length w = var_length v.

(** What the solver expects of the graph it is given: offsets inside the
    slots, and an overlap known from both of its ends. *)
Definition well_formed (cw : Crossword) : Prop :=
  ∀ x y i j, x ∈ variables cw → y ∈ variables cw → x ≠ y →
    overlaps cw x y = Some (i, j) →
    i < var_length x ∧ j < var_length y ∧ is_Some (overlaps cw y x).

(** What a call of [backtrack] on the assignment [a] leaves behind when it
    returns: on failure the dictionary as it was; on success the complete
    dictionary it returns, which extends [a] with words of the domains and
    passed the consistency check unless it is [a] itself. *)
Definition backtrack_post (cw : Crossword) (d : Domains) (a : Assignment)
    (out : res (option Assignment) * Assignment) : Prop :=
  match out.1 with
  | Ret None => out.2 = a
  | Ret (Some r) =>
      out.2 = r ∧ dom d ⊆ dom r ∧ a ⊆ r ∧
      (r = a ∨ consistent cw r = Ret true) ∧
      ∀ v w, r !! v = Some w → a !! v = Some w ∨ ∃ ws, d !! v = Some ws ∧ w ∈ ws
  | _ => True
  end.

(** ** Example puzzles *)

Definition across3 : Var := mkVar 0 0 ACROSS 3.
Definition down3 : Var := mkVar 0 0 DOWN 3.
Definition down4 : Var := mkVar 0 0 DOWN 4.

(** Two slots that share their first cell. *)
Definition corner (x y : Var) (v1 v2 : Var) : option (nat * nat) :=
  if decide (v1 = x ∧ v2 = y ∨ v1 = y ∧ v2 = x) then Some (0, 0) else None.

Definition corner_crossword (x y : Var) (vocabulary : list string) : Crossword :=
  mkCrossword {[x; y]} vocabulary (corner x y).

Definition corner_puzzle : list string → Crossword :=
  corner_crossword across3 down3.

(** Slots of lengths 3 and 4 and one word for each; the two words disagree
    on the shared cell. *)
Definition mismatch_puzzle : Crossword :=
  corner_crossword across3 down4 ["CAT"; "DOGS"].

(** A comb: one ACROSS slot of 2202 cells in row 0, crossed at each of its
    1101 even columns by a DOWN slot of two cells. *)
Definition hub : Var := mkVar 0 0 ACROSS 2202.
Definition tooth (k : nat) : Var := mkVar 0 (2 * k) DOWN 2.
Definition teeth : list Var := tooth <$> seq 0 1101.
Arguments teeth : simpl never.

Definition comb_overlaps (v1 v2 : Var) : option (nat * nat) :=
  match var_direction v1, var_direction v2 with
  | ACROSS, DOWN => Some (var_j v2, 0)
  | DOWN, ACROSS => Some (0, var_j v1)
  | _, _ => None
  end.

(** 2201 letters [A] and a last letter. *)
Definition long_word (last : Ascii.ascii) : string :=
  String.string_of_list_ascii (replicate 2201 "A"%char ++ [last]).

Definition comb : Crossword :=
  mkCrossword ({[hub]} ∪ list_to_set teeth)
    [long_word "X"; long_word "Y"; "AB"] comb_overlaps.

(** ** Arc consistency *)

(** Every word of the domain of [x] has a partner in the domain of [y]. *)
Definition supported (d : Domains) (x y : Var) (ix iy : nat) : Prop :=
  ∀ xs ys w, d !! x = Some xs → d !! y = Some ys → w ∈ xs →
    ∃ w2, w2 ∈ ys ∧ letters_agree w ix w2 iy.

(** The store after a successful AC-3, in the words of its docstring:
    each variable is arc consistent. *)
Definition arc_consistent (cw : Crossword) (d : Domains) : Prop :=
  ∀ x y ix iy, x ≠ y → overlaps cw x y = Some (ix, iy) → supported d x y ix iy.

(** Both ends of an overlap name the same shared cell. *)
Definition mirrored (cw : Crossword) : Prop :=
  ∀ x y i j, x ∈ variables cw → y ∈ variables cw → x ≠ y →
    overlaps cw x y = Some (i, j) → overlaps cw y x = Some (j, i).

(** ** Value ordering *)

(** [word == w or word[i] != w[j]], for the overlap [o = (i, j)]. *)
Definition ruled_out (o : option (nat * nat)) (word w : string) : Prop :=
  word = w ∨ ∃ i j, o = Some (i, j) ∧ ¬ letters_agree word i w j.

#[global] Instance ruled_out_dec o word w : Decision (ruled_out o word w).
Proof.
  unfold ruled_out. destruct (decide (word = w)) as [|Hne]; [left; by left|].
  destruct o as [[i j]|].
  - destruct (decide (letters_agree word i w j)) as [Ha|Ha].
    + right. intros [?|(i' & j' & [= <- <-] & ?)]; done.
    + left. right. eauto.
  - right. intros [?|(i & j & [=] & _)]. done.
Defined.

(** ** The letter grid

    [letter_grid] builds a fresh list of [height] rows of [width] cells,
    all [None], and writes the words of the assignment into it, letter by
    letter.  [height] and [width] are the attributes of the crossword it
    reads; the assignment is given as the list of its items, in the order
    in which the dictionary yields them.  The rows are distinct lists, so
    [letters[i][j] = c] changes one row. *)

Abbreviation Grid := (list (list (option Ascii.ascii))).

(** [l[i]] for a list *)
Definition list_index {A} (l : list A) (i : nat) : res A :=
  match l !! i with
  | Some x => Ret x
  | None => Raise IndexError
  end.

(** [l[j] = c] for a list *)
Definition setitem {A} (l : list A) (j : nat) (c : A) : res (list A) :=
  if decide (j < length l) then Ret (<[j := c]> l) else Raise IndexError.

(** The row [i] and the column [j] of the [k]-th letter of a variable. *)
Definition cell (variable : Var) (k : nat) : nat * nat :=
  (var_i variable + (if decide (var_direction variable = DOWN) then k else 0),
   var_j variable + (if decide (var_direction variable = ACROSS) then k else 0)).
Arguments cell : simpl never.

(** [letters[i][j] = word[k]] *)
Definition write_letter (letters : Grid) (variable : Var) (word : string)
    (k : nat) : res Grid :=
  c ← index word k;
  row ← list_index letters (cell variable k).1;
  row' ← setitem row (cell variable k).2 (Some c);
  Ret (<[(cell variable k).1 := row']> letters).

(** [for k in ks: ...] *)
Fixpoint write_word (letters : Grid) (variable : Var) (word : string)
    (ks : list nat) : res Grid :=
  match ks with
  | [] => Ret letters
  | k :: ks =>
      letters ← write_letter letters variable word k;
      write_word letters variable word ks
  end.

(** [for variable, word in items: ...] *)
Fixpoint write_words (letters : Grid) (items : list (Var * string)) : res Grid :=
  match items with
  | [] => Ret letters
  | (variable, word) :: items =>
      letters ← write_word letters variable word (seq 0 (String.length word));
      write_words letters items
  end.

Definition letter_grid (height width : nat) (items : list (Var * string)) : res Grid :=
  write_words (replicate height (replicate width None)) items.

(** [letters[i][j]], where it exists. *)
Definition grid_lookup (letters : Grid) (i j : nat) : option (option Ascii.ascii) :=
  letters !! i ≫= (.!! j).

(** [height] rows of [width] cells. *)
Definition shape (height width : nat) (letters : Grid) : Prop :=
  length letters = height ∧ Forall (λ row, length row = width) letters.

(** Every letter of every item falls on a cell of the grid. *)
Definition in_grid (height width : nat) (items : list (Var * string)) : Prop :=
  ∀ variable word k, (variable, word) ∈ items → k < String.length word →
    (cell variable k).1 < height ∧ (cell variable k).2 < width.

(** The letter [c] is written on the cell [(i, j)] by one of the items. *)
Definition written (items : list (Var * string)) (i j : nat) (c : Ascii.ascii) : Prop :=
  ∃ variable word k,
    (variable, word) ∈ items ∧ String.get k word = Some c ∧ cell variable k = (i, j).

(** ** Properties *)

Section properties.
Context (cw : Crossword).
Implicit Types (d : Domains) (v : Var).

(** *** Results *)

Lemma bind_Ret {A B} (m : res A) (f : A → res B) b :
  m ≫= f = Ret b → ∃ a, m = Ret a ∧ f a = Ret b.
Proof. destruct m; naive_solver. Qed.

Lemma index_Ret w i c : index w i = Ret c ↔ String.get i w = Some c.
Proof. unfold index. destruct (String.get i w); naive_solver. Qed.

Lemma get_is_Some w i : i < String.length w → is_Some (String.get i w).
Proof.
  revert i. induction w as [|c w IH]; intros i Hi; simpl in *; [lia|].
  destruct i; [eauto|]. apply IH. lia.
Qed.

Lemma getitem_Ret {V} (m : gmap Var V) v r : getitem m v = Ret r ↔ m !! v = Some r.
Proof. unfold getitem. destruct (m !! v); naive_solver. Qed.

(** *** Sorting *)

Lemma with_keys_snd {K A} (key : A → res K) l kl :
  with_keys key l = Ret kl → kl.*2 = l.
Proof.
  revert kl. induction l as [|x l IH]; intros kl H; simpl in *.
  - by inversion H.
  - apply bind_Ret in H as (k & Hk & H). apply bind_Ret in H as (kl' & Hkl & H).
    inversion H; subst. simpl. f_equal. by apply IH.
Qed.

Lemma with_keys_returns {K A} (key : A → res K) l :
  (∀ x, x ∈ l → ∃ k, key x = Ret k) → ∃ kl, with_keys key l = Ret kl.
Proof.
  induction l as [|x l IH]; intros H; simpl; [eauto|].
  destruct (H x) as [k ->]; [left|]. simpl.
  destruct IH as [kl ->]; [intros; apply H; by right|]. simpl. eauto.
Qed.

Lemma insert_by_key_perm {K A} (lt : K → K → bool) (x : K * A) l :
  insert_by_key lt x l ≡ₚ x :: l.
Proof.
  induction l as [|y l IH]; simpl; [done|].
  destruct (lt y.1 x.1); [|done]. rewrite IH. apply Permutation_swap.
Qed.

Lemma sort_by_key_perm {K A} (lt : K → K → bool) (l : list (K * A)) :
  sort_by_key lt l ≡ₚ l.
Proof.
  induction l as [|x l IH]; simpl; [done|]. by rewrite insert_by_key_perm, IH.
Qed.

Lemma sorted_perm {K A} (lt : K → K → bool) (key : A → res K) l l' :
  sorted lt key l = Ret l' → l' ≡ₚ l.
Proof.
  unfold sorted. intros H. apply bind_Ret in H as (kl & Hkl & H).
  inversion H; subst. rewrite sort_by_key_perm. by rewrite (with_keys_snd _ _ _ Hkl).
Qed.

Lemma sorted_returns {K A} (lt : K → K → bool) (key : A → res K) l :
  (∀ x, x ∈ l → ∃ k, key x = Ret k) → ∃ l', sorted lt key l = Ret l'.
Proof.
  intros H. unfold sorted. destruct (with_keys_returns key l H) as [kl ->].
  simpl. eauto.
Qed.

(** *** Node consistency *)

Lemma enforce_node_consistency_lookup d v :
  enforce_node_consistency d !! v =
  filter (λ word, String.length word = var_length v) <$> d !! v.
Proof.
  unfold enforce_node_consistency. rewrite map_lookup_imap.
  by destruct (d !! v).
Qed.

Lemma enforce_node_consistency_dom d : dom (enforce_node_consistency d) = dom d.
Proof.
  apply set_eq. intros v. rewrite !elem_of_dom, enforce_node_consistency_lookup.
  by rewrite fmap_is_Some.
Qed.

Lemma enforce_node_consistency_node_consistent d :
  node_consistent (enforce_node_consistency d).
Proof.
  intros v ws w. rewrite enforce_node_consistency_lookup.
  destruct (d !! v) as [ws0|]; simpl; [|done].
  intros [= <-]. by intros [? _]%list_elem_of_filter.
Qed.

(** C9: node consistency is idempotent: enforcing it a second time leaves
    every domain as the first pass made it. *)
Theorem enforce_node_consistency_idempotent d :
  enforce_node_consistency (enforce_node_consistency d) =
  enforce_node_consistency d.
Proof.
  apply map_eq. intros v. rewrite !enforce_node_consistency_lookup.
  destruct (d !! v) as [ws|]; simpl; [|done]. f_equal.
  induction ws as [|w ws IH]; [done|].
  rewrite filter_cons. case_decide as Hw.
  - rewrite filter_cons. rewrite decide_True by done. by rewrite IH.
  - done.
Qed.

(** *** Arc revision *)

Lemma has_partner_Ret ix iy w ys b :
  has_partner ix iy w ys = Ret b →
  b = bool_decide (Exists (λ w2, letters_agree w ix w2 iy) ys).
Proof.
  induction ys as [|y ys IH]; intros H; simpl in H.
  - inversion H. symmetry. apply bool_decide_eq_false_2. by intros ?%Exists_nil.
  - apply bind_Ret in H as (c1 & Hc1 & H). apply bind_Ret in H as (c2 & Hc2 & H).
    apply index_Ret in Hc1, Hc2.
    destruct (decide (c1 = c2)) as [->|Hne].
    + inversion H. symmetry. apply bool_decide_eq_true_2. left. by exists c2.
    + rewrite (IH H). apply bool_decide_ext. rewrite Exists_cons. split; [auto|].
      intros [(c & ? & ?)|?]; [congruence|done].
Qed.

Lemma has_partner_returns ix iy w ys :
  ix < String.length w → Forall (λ w2, iy < String.length w2) ys →
  ∃ b, has_partner ix iy w ys = Ret b.
Proof.
  intros [c1 Hc1]%get_is_Some. induction 1 as [|y ys [c2 Hc2]%get_is_Some _ IH];
    simpl; [eauto|].
  apply index_Ret in Hc1 as ->, Hc2 as ->. simpl.
  destruct (decide (c1 = c2)); eauto.
Qed.

Lemma revise_keep_Ret ix iy xs (r : res (list string)) keep :
  revise_keep ix iy xs r = Ret keep →
  xs = [] ∧ keep = [] ∨
  ∃ ys, r = Ret ys ∧
    keep = filter (λ w, Exists (λ w2, letters_agree w ix w2 iy) ys) xs.
Proof.
  revert keep. induction xs as [|x xs IH]; simpl; intros keep H.
  - inversion H. by left.
  - right. apply bind_Ret in H as (ys & -> & H). exists ys. split; [done|].
    apply bind_Ret in H as (b & Hb & H). apply bind_Ret in H as (keep' & Hk & H).
    apply has_partner_Ret in Hb. inversion H; subst; clear H.
    assert (keep' = filter (λ w, Exists (λ w2, letters_agree w ix w2 iy) ys) xs)
      as ->.
    { destruct (IH _ Hk) as [[-> ->]|(ys' & [= <-] & ->)]; done. }
    rewrite filter_cons. case_decide.
    + by rewrite bool_decide_eq_true_2.
    + by rewrite bool_decide_eq_false_2.
Qed.

Lemma revise_keep_returns ix iy xs ys :
  Forall (λ w, ix < String.length w) xs →
  Forall (λ w2, iy < String.length w2) ys →
  ∃ keep, revise_keep ix iy xs (Ret ys) = Ret keep.
Proof.
  intros Hxs Hys. induction Hxs as [|x xs Hx _ [keep IH]]; simpl; [eauto|].
  destruct (has_partner_returns ix iy x ys Hx Hys) as [b ->]. simpl.
  rewrite IH. simpl. eauto.
Qed.

Lemma revise_keep_sublist ix iy xs (r : res (list string)) keep :
  revise_keep ix iy xs r = Ret keep → keep `sublist_of` xs.
Proof.
  intros [[-> ->]|(ys & _ & ->)]%revise_keep_Ret; [done|]. apply sublist_filter.
Qed.

Lemma filter_eq_length {A} (P : A → Prop) `{!∀ x, Decision (P x)} (l : list A) :
  length (filter P l) = length l → filter P l = l.
Proof.
  induction l as [|x l IH]; [done|]. rewrite filter_cons. case_decide; simpl.
  - intros [=]. f_equal. by apply IH.
  - pose proof (length_filter P l). lia.
Qed.

(** C6: with an overlap [(ix, iy)], [revise x y] keeps in the domain of
    [x] exactly the words that have a partner in the domain of [y]
    agreeing on the shared letter, leaves the other domains alone and
    returns whether the domain of [x] changed; without an overlap it
    changes nothing and returns [False].  The offsets are taken to lie
    inside the words of the two domains. *)
Theorem revise_contract d x y :
  (∀ ix iy xs ys,
     overlaps cw x y = Some (ix, iy) →
     d !! x = Some xs → d !! y = Some ys →
     Forall (λ w, ix < String.length w) xs →
     Forall (λ w2, iy < String.length w2) ys →
     let keep := filter (λ w, Exists (λ w2, letters_agree w ix w2 iy) ys) xs in
     revise cw x y d = (Ret (bool_decide (keep ≠ xs)), <[x := keep]> d)) ∧
  (overlaps cw x y = None → revise cw x y d = (Ret false, d)).
Proof.
  split.
  - intros ix iy xs ys Ho Hx Hy Hxs Hys keep. unfold revise. rewrite Ho, Hx.
    apply getitem_Ret in Hy as ->.
    destruct (revise_keep_returns ix iy xs ys Hxs Hys) as [keep' Hk].
    rewrite Hk.
    apply revise_keep_Ret in Hk as [[-> ->]|(ys' & [= <-] & ->)]; [done|].
    fold keep. f_equal. f_equal. apply bool_decide_ext. split.
    + intros Hl ->. by apply Hl.
    + intros Hk Hl. apply Hk. by apply filter_eq_length.
  - intros Ho. unfold revise. by rewrite Ho.
Qed.

(** *** Shrinking stores *)

Lemma shrinks_refl d : shrinks d d.
Proof. split; [done|]. intros v ws ws' H1 H2. by simplify_eq. Qed.

Lemma shrinks_trans d1 d2 d3 : shrinks d1 d2 → shrinks d2 d3 → shrinks d1 d3.
Proof.
  intros [Hd12 H12] [Hd23 H23]. split; [congruence|].
  intros v ws ws3 H1 H3.
  assert (is_Some (d2 !! v)) as [ws2 H2].
  { apply elem_of_dom. rewrite Hd12. apply elem_of_dom. eauto. }
  destruct (H12 _ _ _ H1 H2), (H23 _ _ _ H2 H3). split; [by etrans|lia].
Qed.

Lemma shrinks_insert d x xs keep :
  d !! x = Some xs → keep `sublist_of` xs → shrinks d (<[x := keep]> d).
Proof.
  intros Hx Hk. split.
  - rewrite dom_insert_L. apply elem_of_dom_2 in Hx.
    apply set_eq. intros v. rewrite elem_of_union, elem_of_singleton.
    split; [by intros [->|?]|auto].
  - intros v ws ws' H1 H2. destruct (decide (x = v)) as [->|Hne].
    + rewrite lookup_insert_eq in H2. simplify_eq. split.
      * by apply sublist_subseteq.
      * by apply sublist_length.
    + rewrite lookup_insert_ne in H2 by done. by simplify_eq.
Qed.

Lemma shrinks_node_consistent d d' :
  shrinks d d' → node_consistent d → node_consistent d'.
Proof.
  intros [Hdom Hsub] Hnode v ws' w Hv Hw.
  assert (is_Some (d !! v)) as [ws Hws].
  { apply elem_of_dom. rewrite <-Hdom. by apply elem_of_dom_2 in Hv. }
  destruct (Hsub _ _ _ Hws Hv) as [Hin _]. eapply Hnode; [done|]. by apply Hin.
Qed.

Lemma enforce_node_consistency_shrinks d :
  shrinks d (enforce_node_consistency d).
Proof.
  split; [apply enforce_node_consistency_dom|].
  intros v ws ws' H1. rewrite enforce_node_consistency_lookup, H1. intros [= <-].
  split; [|apply length_filter]. intros w. rewrite list_elem_of_filter. tauto.
Qed.

Lemma revise_shrinks x y d : shrinks d (revise cw x y d).2.
Proof.
  unfold revise. destruct (overlaps cw x y) as [[ix iy]|]; [|apply shrinks_refl].
  destruct (d !! x) as [xs|] eqn:Hx; [|apply shrinks_refl].
  destruct (revise_keep ix iy xs (getitem d y)) as [keep| |] eqn:Hk;
    simpl; try apply shrinks_refl.
  eapply shrinks_insert; [done|]. by eapply revise_keep_sublist.
Qed.

Lemma ac3_loop_shrinks fuel stack d : shrinks d (ac3_loop cw fuel stack d).2.
Proof.
  revert stack d. induction fuel as [|fuel IH]; intros stack d; simpl;
    [apply shrinks_refl|].
  destruct stack as [|[x y] stack]; [apply shrinks_refl|].
  pose proof (revise_shrinks x y d) as Hr.
  destruct (revise cw x y d) as [[[]| |] d']; simpl in *; try done.
  - destruct (d' !! x) as [xs|]; [|done]. case_decide; [done|].
    eapply shrinks_trans; [done|apply IH].
  - eapply shrinks_trans; [done|apply IH].
Qed.

Lemma ac3_shrinks arcs d : shrinks d (ac3 cw arcs d).2.
Proof. apply ac3_loop_shrinks. Qed.

Lemma solve_final_domains d :
  final_domains (solve cw d) = (ac3 cw None (enforce_node_consistency d)).2.
Proof.
  unfold solve. by destruct (ac3 cw None (enforce_node_consistency d)) as [[]?].
Qed.

Lemma domains_shrink_in_solve d : shrinks d (final_domains (solve cw d)).
Proof.
  rewrite solve_final_domains. eapply shrinks_trans;
    [apply enforce_node_consistency_shrinks|apply ac3_shrinks].
Qed.

(** C8: the domains only shrink before the search: node consistency,
    every single revision, the whole of AC-3 and so the whole pipeline
    of [solve] leave each variable with a subset of its earlier domain,
    of no greater size. *)
Theorem domains_only_shrink d :
  shrinks d (enforce_node_consistency d) ∧
  (∀ x y, shrinks d (revise cw x y d).2) ∧
  (∀ arcs, shrinks d (ac3 cw arcs d).2) ∧
  shrinks d (final_domains (solve cw d)).
Proof.
  split; [apply enforce_node_consistency_shrinks|].
  split; [intros; apply revise_shrinks|].
  split; [intros; apply ac3_shrinks|]. apply domains_shrink_in_solve.
Qed.

(** *** AC-3 *)

Lemma has_partner_fuel ix iy w ys : has_partner ix iy w ys ≠ OutOfFuel.
Proof.
  induction ys as [|y ys IH]; simpl; [done|]. unfold index.
  destruct (String.get ix w); simpl; [|done].
  destruct (String.get iy y); simpl; [|done]. by case_decide.
Qed.

Lemma revise_keep_fuel ix iy xs (r : res (list string)) :
  r ≠ OutOfFuel → revise_keep ix iy xs r ≠ OutOfFuel.
Proof.
  intros Hr. induction xs as [|x xs IH]; simpl; [done|].
  destruct r as [ys| |]; simpl in *; [|done..].
  pose proof (has_partner_fuel ix iy x ys).
  destruct (has_partner ix iy x ys); simpl; [|done..].
  by destruct (revise_keep ix iy xs (Ret ys)).
Qed.

Lemma revise_fuel x y d : (revise cw x y d).1 ≠ OutOfFuel.
Proof.
  unfold revise. destruct (overlaps cw x y) as [[ix iy]|]; [|done].
  destruct (d !! x) as [xs|]; [|done].
  pose proof (revise_keep_fuel ix iy xs (getitem d y)) as H.
  destruct (revise_keep ix iy xs (getitem d y)); simpl; [done..|].
  destruct H; [|done]. unfold getitem. by destruct (d !! y).
Qed.

Lemma revise_Ret x y d b d' :
  revise cw x y d = (Ret b, d') →
  overlaps cw x y = None ∧ b = false ∧ d' = d ∨
  ∃ ix iy xs keep,
    overlaps cw x y = Some (ix, iy) ∧ d !! x = Some xs ∧
    revise_keep ix iy xs (getitem d y) = Ret keep ∧
    b = bool_decide (length keep ≠ length xs) ∧ d' = <[x := keep]> d.
Proof.
  unfold revise. destruct (overlaps cw x y) as [[ix iy]|]; [|left; naive_solver].
  destruct (d !! x) as [xs|]; [|done].
  destruct (revise_keep ix iy xs (getitem d y)) as [keep| |] eqn:Hk; [|done..].
  intros [= <- <-]. right. by exists ix, iy, xs, keep.
Qed.

Lemma store_size_insert d x xs keep :
  d !! x = Some xs →
  store_size (<[x := keep]> d) + length xs = store_size d + length keep.
Proof.
  intros Hx. unfold store_size.
  rewrite <-(insert_delete_eq d x keep).
  rewrite (map_to_list_insert (delete x d) x keep) by apply lookup_delete_eq.
  rewrite <-(map_to_list_delete d x xs Hx). simpl. lia.
Qed.

Lemma append_arcs_length x zs (stack : list (Var * Var)) :
  length (append_arcs x zs stack) = length zs + length stack.
Proof.
  revert stack. induction zs as [|z zs IH]; intros stack; simpl; [done|].
  unfold append_arcs in *. rewrite IH. simpl. lia.
Qed.

Lemma append_arcs_elem_of x zs (stack : list (Var * Var)) arc :
  arc ∈ append_arcs x zs stack ↔ arc ∈ stack ∨ ∃ z, z ∈ zs ∧ arc = (z, x).
Proof.
  revert stack. induction zs as [|z zs IH]; intros stack; simpl.
  - split; [auto|]. intros [?|(z & []%elem_of_nil & _)]; done.
  - unfold append_arcs in *. simpl. rewrite IH, elem_of_cons. split.
    + intros [[->|?]|(z' & ? & ->)]; [right; exists z; split; [left|done]|auto|].
      right. exists z'. split; [by right|done].
    + intros [?|(z' & Hz & ->)]; [auto|].
      apply elem_of_cons in Hz as [->|?]; [auto|right; eauto].
Qed.

Lemma degree_le x y : size (neighbors cw x ∖ {[y]}) ≤ size (variables cw).
Proof.
  apply subseteq_size. intros v [Hv _]%elem_of_difference.
  by apply elem_of_filter in Hv as [_ ?].
Qed.

(** The iteration count of [ac3_fuel] is never exhausted. *)
Lemma ac3_loop_terminates fuel stack d :
  length stack + store_size d * size (variables cw) < fuel →
  (ac3_loop cw fuel stack d).1 ≠ OutOfFuel.
Proof.
  revert stack d. induction fuel as [|fuel IH]; intros stack d Hfuel; [lia|].
  simpl. destruct stack as [|[x y] stack]; [done|]. simpl in Hfuel.
  pose proof (revise_fuel x y d) as Hf.
  destruct (revise cw x y d) as [[b| |] d'] eqn:Hr; simpl in *; [|done..].
  apply revise_Ret in Hr as [(_ & -> & ->)|(ix & iy & xs & keep & _ & Hx & Hk & -> & ->)].
  { apply IH. lia. }
  pose proof (store_size_insert d x xs keep Hx) as Hsize.
  pose proof (sublist_length _ _ (revise_keep_sublist _ _ _ _ _ Hk)) as Hlen.
  case_bool_decide as Hne.
  - rewrite lookup_insert_eq. case_decide; [done|]. apply IH.
    rewrite append_arcs_length. pose proof (degree_le x y) as Hdeg.
    change (size (neighbors cw x ∖ {[y]}))
      with (length (elements (neighbors cw x ∖ {[y]}))) in Hdeg.
    assert (store_size (<[x := keep]> d) < store_size d) by lia. nia.
  - apply IH. nia.
Qed.

Lemma ac3_returns arcs d : (ac3 cw arcs d).1 ≠ OutOfFuel.
Proof.
  unfold ac3, ac3_fuel. apply ac3_loop_terminates. rewrite length_reverse. lia.
Qed.

Lemma initial_arcs_elem_of d x y :
  (x, y) ∈ initial_arcs cw d ↔ x ∈ dom d ∧ y ∈ neighbors cw x.
Proof.
  unfold initial_arcs. rewrite list_elem_of_bind. split.
  - intros (v1 & H & Hv1). apply list_elem_of_bind in H as (v2 & H & Hv2).
    apply list_elem_of_ret in H as [= -> ->]. by rewrite !elem_of_elements in *.
  - intros [Hx Hy]. exists x. rewrite elem_of_elements. split; [|done].
    apply list_elem_of_bind. exists y. rewrite elem_of_elements.
    split; [|done]. by apply list_elem_of_ret.
Qed.

Lemma neighbors_ne x y : y ∈ neighbors cw x → y ≠ x.
Proof. by intros [[? _] _]%elem_of_filter. Qed.

(** A revision along an arc between two different variables removes no
    word that a solution uses. *)
Lemma revise_preserves_solution x y d b d' s :
  x ≠ y → revise cw x y d = (Ret b, d') → solution cw d s → solution cw d' s.
Proof.
  intros Hxy Hr (Hdom & Hdrawn & Hsat).
  apply revise_Ret in Hr
    as [(_ & _ & ->)|(ix & iy & xs & keep & Ho & Hx & Hk & _ & ->)]; [done|].
  split; [|split; [|done]].
  { rewrite Hdom, dom_insert_L. apply elem_of_dom_2 in Hx.
    apply set_eq. intros v. rewrite elem_of_union, elem_of_singleton.
    split; [auto|by intros [->|?]]. }
  intros v w Hv. destruct (decide (x = v)) as [<-|Hne];
    [|rewrite lookup_insert_ne by done; by apply Hdrawn].
  rewrite lookup_insert_eq. exists keep. split; [done|].
  destruct (Hdrawn _ _ Hv) as (xs' & Hx' & Hw). simplify_eq.
  apply revise_keep_Ret in Hk as [[-> _]|(ys & Hy & ->)];
    [by apply elem_of_nil in Hw|].
  apply getitem_Ret in Hy. apply list_elem_of_filter. split; [|done].
  assert (is_Some (s !! y)) as [w2 Hw2].
  { apply elem_of_dom. rewrite Hdom. by apply elem_of_dom_2 in Hy. }
  destruct (Hdrawn _ _ Hw2) as (ys' & Hy' & Hw2'). simplify_eq.
  apply Exists_exists. exists w2. split; [done|].
  destruct (Hsat _ _ Hv) as [_ Hpair].
  destruct (Hpair _ _ Hw2 Hxy) as [_ Hagree]. by apply Hagree.
Qed.

Lemma ac3_loop_sound fuel (stack : list (Var * Var)) d d' :
  Forall (λ arc, arc.1 ≠ arc.2) stack →
  ac3_loop cw fuel stack d = (Ret false, d') →
  ¬ ∃ s, solution cw d s.
Proof.
  revert stack d. induction fuel as [|fuel IH]; intros stack d Hstack; [done|].
  simpl. destruct stack as [|[x y] stack]; [done|].
  apply Forall_cons in Hstack as [Hxy Hstack]. simpl in Hxy.
  destruct (revise cw x y d) as [[b| |] d1] eqn:Hr; [|done..].
  intros Hloop [s Hs].
  pose proof (revise_preserves_solution _ _ _ _ _ _ Hxy Hr Hs) as Hs1.
  destruct b.
  - destruct (d1 !! x) as [xs|] eqn:Hx; [|done]. case_decide as Hlen.
    + destruct Hs1 as (Hdom & Hdrawn & _).
      assert (is_Some (s !! x)) as [w Hw].
      { apply elem_of_dom. rewrite Hdom. by apply elem_of_dom_2 in Hx. }
      destruct (Hdrawn _ _ Hw) as (xs' & Hx' & Hin). simplify_eq.
      apply nil_length_inv in Hlen as ->. by apply elem_of_nil in Hin.
    + eapply IH; [|done|by exists s].
      apply Forall_forall. intros arc [?|(z & Hz & ->)]%append_arcs_elem_of.
      * by eapply Forall_forall in Hstack.
      * apply elem_of_elements, elem_of_difference in Hz as [Hz _].
        by apply neighbors_ne in Hz.
  - eapply IH; [done..|by exists s].
Qed.

(** C4: when AC-3 reports infeasibility, no complete assignment drawn from
    the domains it started from satisfies the length, distinctness and
    overlap constraints.  This holds for the worklist of all the arcs of
    the graph ([arcs is None]) and for any worklist of arcs between
    different variables. *)
Theorem ac3_failure_sound arcs d d' :
  (∀ l, arcs = Some l → Forall (λ arc, arc.1 ≠ arc.2) l) →
  ac3 cw arcs d = (Ret false, d') → ¬ ∃ s, solution cw d s.
Proof.
  intros Harcs. unfold ac3. apply ac3_loop_sound. apply Forall_forall.
  intros [x y] Hin. rewrite elem_of_reverse in Hin. destruct arcs as [l|].
  - specialize (Harcs l eq_refl). rewrite Forall_forall in Harcs.
    by apply (Harcs (x, y)).
  - apply initial_arcs_elem_of in Hin as [_ Hy].
    simpl. intros ->. by apply neighbors_ne in Hy.
Qed.

(** *** AC-3 on empty domains *)

Lemma ac3_loop_all_empty fuel (stack : list (Var * Var)) d :
  (∀ v ws, d !! v = Some ws → ws = []) →
  Forall (λ arc, arc.1 ∈ dom d) stack →
  length stack < fuel →
  ac3_loop cw fuel stack d = (Ret true, d).
Proof.
  intros Hd. revert fuel. induction stack as [|[x y] stack IH];
    intros fuel Hstack Hfuel; (destruct fuel as [|fuel]; [simpl in *; lia|]);
    simpl; [done|].
  apply Forall_cons in Hstack as [[xs Hx]%elem_of_dom Hstack]. simpl in *.
  assert (revise cw x y d = (Ret false, d)) as ->.
  { unfold revise. destruct (overlaps cw x y) as [[ix iy]|]; [|done].
    pose proof (Hd _ _ Hx); subst xs. rewrite Hx. simpl. by rewrite insert_id. }
  apply IH; [done|lia].
Qed.

(** C10: AC-3 can return [True] although domains are empty.  With an
    empty vocabulary every domain is empty from the start; AC-3 then goes
    through all the arcs without a revision removing anything, and
    returns [True], leaving every variable with an empty domain. *)
Theorem ac3_true_with_empty_domains :
  words cw = [] →
  let d := enforce_node_consistency (new_domains cw) in
  ac3 cw None d = (Ret true, d) ∧ ∀ v, v ∈ variables cw → d !! v = Some [].
Proof.
  intros Hwords d.
  assert (∀ v, d !! v = if decide (v ∈ variables cw) then Some [] else None)
    as Hd.
  { intros v. unfold d, new_domains.
    rewrite enforce_node_consistency_lookup, lookup_gset_to_gmap, Hwords.
    by case_decide; simplify_option_eq. }
  split; [|intros v Hv; by rewrite Hd, decide_True].
  unfold ac3. apply ac3_loop_all_empty.
  - intros v ws. rewrite Hd. by case_decide; intros [=].
  - apply Forall_forall. intros [x y] [? _]%elem_of_reverse%initial_arcs_elem_of.
    done.
  - unfold ac3_fuel. rewrite length_reverse. lia.
Qed.

(** *** The consistency check *)

Lemma consistent_with_true v1 w1 (l : list (Var * string)) :
  consistent_with cw v1 w1 l = Ret true →
  ∀ v2 w2, (v2, w2) ∈ l → v1 ≠ v2 →
    w1 ≠ w2 ∧ ∀ i j, overlaps cw v1 v2 = Some (i, j) → letters_agree w1 i w2 j.
Proof.
  induction l as [|[v w] l IH]; simpl; intros H v2 w2 Hin Hne.
  { by apply elem_of_nil in Hin. }
  destruct (decide (v1 = v)) as [->|Hv].
  { apply elem_of_cons in Hin as [[= -> ->]|Hin]; [done|]. by apply IH. }
  destruct (decide (w1 = w)) as [->|Hw]; [done|].
  assert (consistent_with cw v1 w1 l = Ret true ∧
          ∀ i j, overlaps cw v1 v = Some (i, j) → letters_agree w1 i w j)
    as [Hrest Hagree].
  { destruct (overlaps cw v1 v) as [[i j]|]; [|done].
    apply bind_Ret in H as (c1 & Hc1 & H). apply bind_Ret in H as (c2 & Hc2 & H).
    apply index_Ret in Hc1, Hc2.
    destruct (decide (c1 = c2)) as [->|Hc].
    - rewrite decide_False in H by auto. split; [done|].
      intros ? ? [= <- <-]. by exists c2.
    - by rewrite decide_True in H. }
  apply elem_of_cons in Hin as [[= -> ->]|Hin]; [done|]. by apply IH.
Qed.

Lemma consistent_with_false v1 w1 (l : list (Var * string)) :
  consistent_with cw v1 w1 l = Ret false →
  ∃ v2 w2, (v2, w2) ∈ l ∧ v1 ≠ v2 ∧
    (w1 = w2 ∨ ∃ i j, overlaps cw v1 v2 = Some (i, j) ∧ ¬ letters_agree w1 i w2 j).
Proof.
  induction l as [|[v w] l IH]; simpl; intros H; [done|].
  assert (consistent_with cw v1 w1 l = Ret false →
          ∃ v2 w2, (v2, w2) ∈ (v, w) :: l ∧ v1 ≠ v2 ∧
            (w1 = w2 ∨ ∃ i j, overlaps cw v1 v2 = Some (i, j) ∧
               ¬ letters_agree w1 i w2 j)) as Hrest.
  { intros (v2 & w2 & ? & ?)%IH. exists v2, w2. split; [by right|done]. }
  destruct (decide (v1 = v)) as [->|Hv]; [auto|].
  destruct (decide (w1 = w)) as [->|Hw].
  { exists v, w. split; [left|]. auto. }
  destruct (overlaps cw v1 v) as [[i j]|] eqn:Ho; [|auto].
  apply bind_Ret in H as (c1 & Hc1 & H). apply bind_Ret in H as (c2 & Hc2 & H).
  apply index_Ret in Hc1, Hc2. case_decide as Hc; [|auto].
  exists v, w. split; [left|]. split; [done|]. right. exists i, j.
  split; [done|]. intros (c & ? & ?). congruence.
Qed.

Lemma consistent_with_returns v1 w1 (l : list (Var * string)) :
  (∀ v2 w2 i j, (v2, w2) ∈ l → v1 ≠ v2 → overlaps cw v1 v2 = Some (i, j) →
     i < String.length w1 ∧ j < String.length w2) →
  ∃ b, consistent_with cw v1 w1 l = Ret b.
Proof.
  induction l as [|[v w] l IH]; simpl; intros Hl; [eauto|].
  assert (∃ b, consistent_with cw v1 w1 l = Ret b) as Hrest.
  { apply IH. intros v2 w2 i j ?. apply Hl. by right. }
  destruct (decide (v1 = v)) as [->|Hv]; [done|].
  destruct (decide (w1 = w)) as [->|Hw]; [eauto|].
  destruct (overlaps cw v1 v) as [[i j]|] eqn:Ho; [|done].
  destruct (Hl v w i j) as [[c1 Hc1]%get_is_Some [c2 Hc2]%get_is_Some];
    [left|done..|].
  apply index_Ret in Hc1 as ->, Hc2 as ->. simpl. case_decide; eauto.
Qed.

Lemma consistent_true a : consistent cw a = Ret true → satisfies cw a.
Proof.
  unfold consistent. intros H v1 w1 Hv1.
  assert (∀ l, consistent_loop cw l (map_to_list a) = Ret true →
            (v1, w1) ∈ l →
            String.length w1 = var_length v1 ∧
            consistent_with cw v1 w1 (map_to_list a) = Ret true) as Hloop.
  { induction l as [|[v w] l IH]; simpl; intros Hl Hin.
    { by apply elem_of_nil in Hin. }
    case_decide as Hlen; [done|].
    apply bind_Ret in Hl as ([] & Hw & Hl); [|done].
    apply elem_of_cons in Hin as [[= -> ->]|Hin]; [|by apply IH].
    split; [|done]. by destruct (decide (String.length w = var_length v)). }
  destruct (Hloop _ H) as [Hlen Hwith]; [by apply elem_of_map_to_list|].
  split; [done|]. intros v2 w2 Hv2. eapply consistent_with_true; [done|].
  by apply elem_of_map_to_list.
Qed.

Lemma consistent_false a : consistent cw a = Ret false → ¬ satisfies cw a.
Proof.
  unfold consistent. intros H Hsat.
  assert (∀ l, consistent_loop cw l (map_to_list a) = Ret false →
            ∃ v1 w1, (v1, w1) ∈ l ∧
              (String.length w1 ≠ var_length v1 ∨
               consistent_with cw v1 w1 (map_to_list a) = Ret false)) as Hloop.
  { induction l as [|[v w] l IH]; simpl; intros Hl; [done|].
    case_decide as Hlen.
    { exists v, w. split; [left|]. auto. }
    apply bind_Ret in Hl as ([] & Hw & Hl).
    - apply IH in Hl as (v1 & w1 & ? & ?). exists v1, w1. split; [by right|done].
    - exists v, w. split; [left|]. auto. }
  destruct (Hloop _ H) as (v1 & w1 & Hv1%elem_of_map_to_list & Hbad).
  destruct (Hsat _ _ Hv1) as [Hlen Hpair].
  destruct Hbad as [?|Hbad]; [done|].
  apply consistent_with_false in Hbad
    as (v2 & w2 & Hv2%elem_of_map_to_list & Hne & Hbad).
  destruct (Hpair _ _ Hv2 Hne) as [Hw Hagree].
  destruct Hbad as [?|(i & j & Ho & Hno)]; [done|]. by apply Hno, Hagree.
Qed.

Lemma consistent_returns a :
  (∀ v1 w1 v2 w2 i j, a !! v1 = Some w1 → a !! v2 = Some w2 → v1 ≠ v2 →
     overlaps cw v1 v2 = Some (i, j) →
     i < String.length w1 ∧ j < String.length w2) →
  ∃ b, consistent cw a = Ret b.
Proof.
  intros Ha. unfold consistent.
  assert (∀ l, (∀ v1 w1, (v1, w1) ∈ l → a !! v1 = Some w1) →
            ∃ b, consistent_loop cw l (map_to_list a) = Ret b) as Hloop.
  { induction l as [|[v w] l IH]; simpl; intros Hl; [eauto|].
    case_decide; [eauto|].
    destruct (consistent_with_returns v w (map_to_list a)) as [[] ->]; simpl.
    - intros v2 w2 i j Hv2%elem_of_map_to_list. apply Ha; [|done].
      apply Hl. left.
    - apply IH. intros v1 w1 ?. apply Hl. by right.
    - eauto. }
  apply Hloop. intros v1 w1. by rewrite elem_of_map_to_list.
Qed.

Lemma satisfies_mono a s : a ⊆ s → satisfies cw s → satisfies cw a.
Proof.
  intros Hsub Hs v1 w1 Hv1.
  destruct (Hs v1 w1) as [Hlen Hpair]; [by eapply lookup_weaken|].
  split; [done|]. intros v2 w2 Hv2. apply Hpair. by eapply lookup_weaken.
Qed.

Lemma assignment_complete_true d a :
  assignment_complete d a = true ↔ dom d ⊆ dom a.
Proof.
  unfold assignment_complete. rewrite forallb_forall. split.
  - intros H v Hv. apply elem_of_elements, list_elem_of_In in Hv.
    by apply H, bool_decide_eq_true in Hv.
  - intros H v Hv%list_elem_of_In%elem_of_elements.
    by apply bool_decide_eq_true, H.
Qed.

(** *** The heuristics *)

Lemma select_unassigned_variable_Ret d a var :
  select_unassigned_variable cw d a = Ret var → var ∈ dom d ∧ var ∉ dom a.
Proof.
  unfold select_unassigned_variable. intros H.
  apply bind_Ret in H as (l & Hl & H). apply sorted_perm in Hl.
  destruct l as [|v l]; [done|]. inversion H; subst.
  assert (var ∈ elements (dom d ∖ dom a)) as Hin by (rewrite <-Hl; left).
  by apply elem_of_elements, elem_of_difference in Hin.
Qed.

Lemma select_unassigned_variable_returns d a :
  assignment_complete d a = false →
  ∃ var, select_unassigned_variable cw d a = Ret var.
Proof.
  intros Hc. unfold select_unassigned_variable.
  match goal with |- context [sorted ?lt ?key ?l] =>
    destruct (sorted_returns lt key l) as [l' Hl] end.
  { intros v [[ws Hws]%elem_of_dom _]%elem_of_elements%elem_of_difference.
    unfold getitem. rewrite Hws. simpl. eauto. }
  rewrite Hl. simpl. destruct l' as [|v l']; [|eauto].
  apply sorted_perm in Hl. symmetry in Hl.
  apply Permutation_nil_r, elements_empty_inv in Hl.
  apply not_true_iff_false in Hc. destruct Hc.
  apply assignment_complete_true. intros v Hv.
  destruct (decide (v ∈ dom a)) as [|Hn]; [done|].
  assert (v ∈ dom d ∖ dom a) as Hin by by apply elem_of_difference.
  rewrite Hl in Hin. by apply elem_of_empty in Hin.
Qed.

Lemma order_domain_values_Ret d var a values :
  order_domain_values cw d var a = Ret values →
  ∃ ws, d !! var = Some ws ∧ values ≡ₚ ws.
Proof.
  unfold order_domain_values. intros H.
  apply bind_Ret in H as (ws & Hws%getitem_Ret & H). exists ws.
  split; [done|]. by eapply sorted_perm.
Qed.

Lemma count_in_domain_returns o word ws count :
  (∀ w, w ∈ ws → word ≠ w →
     ∃ i j, o = Some (i, j) ∧ i < String.length word ∧ j < String.length w) →
  ∃ n, count_in_domain o word ws count = Ret n.
Proof.
  revert count. induction ws as [|w ws IH]; intros count Hws; simpl; [eauto|].
  assert (∃ b, rules_out o word w = Ret b) as [b ->].
  { unfold rules_out. case_decide as Hw; [eauto|].
    destruct (Hws w) as (i & j & -> & [c1 Hc1]%get_is_Some & [c2 Hc2]%get_is_Some);
      [left|done|].
    apply index_Ret in Hc1 as ->, Hc2 as ->. simpl. eauto. }
  simpl. apply IH. intros w' ?. apply Hws. by right.
Qed.

Lemma count_removed_loop_returns d var word ns count :
  (∀ n, n ∈ ns → ∃ ws, d !! n = Some ws ∧
     ∀ w, w ∈ ws → word ≠ w →
       ∃ i j, overlaps cw var n = Some (i, j) ∧
              i < String.length word ∧ j < String.length w) →
  ∃ k, count_removed_loop cw d var word ns count = Ret k.
Proof.
  revert count. induction ns as [|n ns IH]; intros count Hns; simpl; [eauto|].
  destruct (Hns n) as (ws & Hws & Hw); [left|]. apply getitem_Ret in Hws as ->.
  simpl. destruct (count_in_domain_returns _ word ws count Hw) as [k ->].
  simpl. apply IH. intros n' ?. apply Hns. by right.
Qed.

Lemma order_domain_values_returns d var a :
  well_formed cw → dom d = variables cw → node_consistent d → var ∈ dom d →
  ∃ values, order_domain_values cw d var a = Ret values.
Proof.
  intros Hwf Hdom Hnode [ws Hws]%elem_of_dom. unfold order_domain_values.
  apply getitem_Ret in Hws as Hget. rewrite Hget. simpl.
  apply sorted_returns. intros word Hword.
  unfold count_removed_in_neighbors. apply count_removed_loop_returns.
  intros n [Hn _]%elem_of_elements%elem_of_difference.
  apply elem_of_filter in Hn as [[Hne [[i' j'] Ho']] Hvar].
  assert (is_Some (d !! n)) as [wsn Hwsn] by (apply elem_of_dom; by rewrite Hdom).
  assert (var ∈ variables cw) as Hvar'.
  { rewrite <-Hdom. apply elem_of_dom. eauto. }
  exists wsn. split; [done|]. intros w Hw _.
  destruct (Hwf n var i' j') as (_ & _ & [[i j] Ho]); [done..|].
  destruct (Hwf var n i j) as (Hi & Hj & _); [done..|].
  exists i, j. split; [done|].
  rewrite (Hnode _ _ _ Hws Hword), (Hnode _ _ _ Hwsn Hw). done.
Qed.

(** *** Backtracking search *)

Lemma try_values_post rec d var ws values a :
  (∀ a1, backtrack_post cw d a1 (rec a1)) →
  d !! var = Some ws → values ⊆ ws → a !! var = None →
  backtrack_post cw d a (try_values cw rec var values a).
Proof.
  intros Hrec Hws Hvalues Ha.
  induction values as [|value values IH]; simpl; [done|].
  assert (backtrack_post cw d a (try_values cw rec var values a)) as Hrest.
  { apply IH. intros w ?. apply Hvalues. by right. }
  assert (delete var (<[var := value]> a) = a) as Hundo
    by by apply delete_insert_id.
  destruct (consistent cw (<[var := value]> a)) as [[]| |] eqn:Hc;
    [|by rewrite Hundo|done..].
  specialize (Hrec (<[var := value]> a)). unfold backtrack_post in Hrec.
  destruct (rec (<[var := value]> a)) as [[[r|]| |] a2]; simpl in *; [| |done..].
  - destruct Hrec as (-> & Hcomplete & Hsub & Hcons & Hdrawn).
    unfold backtrack_post. simpl. split; [done|]. split; [done|].
    split; [by etrans; [apply insert_subseteq|]|].
    split; [right; by destruct Hcons as [->|]|].
    intros v w Hv. destruct (Hdrawn v w Hv) as [Hv1|]; [|auto].
    destruct (decide (var = v)) as [<-|Hne].
    + rewrite lookup_insert_eq in Hv1. simplify_eq. right. exists ws.
      split; [done|]. apply Hvalues. left.
    + rewrite lookup_insert_ne in Hv1 by done. auto.
  - subst a2. by rewrite Hundo.
Qed.

Lemma backtrack_fuel_post fuel d a :
  backtrack_post cw d a (backtrack_fuel cw fuel d a).
Proof.
  revert a. induction fuel as [|fuel IH]; intros a; simpl; [done|].
  destruct (assignment_complete d a) eqn:Hc.
  { apply assignment_complete_true in Hc. unfold backtrack_post. simpl. auto 6. }
  destruct (select_unassigned_variable cw d a) as [var| |] eqn:Hsel; [|done..].
  apply select_unassigned_variable_Ret in Hsel as [_ Hvar%not_elem_of_dom].
  destruct (order_domain_values cw d var a) as [values| |] eqn:Hord; [|done..].
  apply order_domain_values_Ret in Hord as (ws & Hws & Hperm).
  eapply try_values_post; [done..| |done]. intros w. by rewrite Hperm.
Qed.

(** C7: a call of [backtrack] that returns the failure marker leaves the
    assignment dictionary exactly as it received it, whatever the depth
    it is called at: the bindings tried in the call and in the calls
    nested in it are all removed. *)
Theorem backtrack_failure_restores fuel d a a' :
  backtrack_fuel cw fuel d a = (Ret None, a') → a' = a.
Proof.
  intros H. pose proof (backtrack_fuel_post fuel d a) as Hpost.
  unfold backtrack_post in Hpost. by rewrite H in Hpost.
Qed.

Lemma try_values_failure rec d var values a a' s :
  (∀ a1, backtrack_post cw d a1 (rec a1)) →
  (∀ a1 a1', rec a1 = (Ret None, a1') → ¬ a1 ⊆ s) →
  a !! var = None → a ⊆ s → satisfies cw s →
  try_values cw rec var values a = (Ret None, a') →
  ∀ w, w ∈ values → s !! var ≠ Some w.
Proof.
  intros Hpost Hrec Ha Hsub Hsat.
  induction values as [|value values IH]; simpl; intros Hloop w Hw Hs.
  { by apply elem_of_nil in Hw. }
  assert (delete var (<[var := value]> a) = a) as Hundo
    by by apply delete_insert_id.
  assert (s !! var = Some value → <[var := value]> a ⊆ s) as Hext.
  { intros. by apply insert_subseteq_l. }
  destruct (consistent cw (<[var := value]> a)) as [[]| |] eqn:Hc; [| |done..].
  - specialize (Hpost (<[var := value]> a)). unfold backtrack_post in Hpost.
    destruct (rec (<[var := value]> a)) as [[[r|]| |] a2] eqn:Hr;
      simpl in *; [done| |done..].
    subst a2. rewrite Hundo in Hloop.
    apply elem_of_cons in Hw as [->|Hw]; [|by eapply IH].
    by eapply Hrec, Hext.
  - rewrite Hundo in Hloop.
    apply elem_of_cons in Hw as [->|Hw]; [|by eapply IH].
    eapply consistent_false; [done|]. eapply satisfies_mono; [|done]. auto.
Qed.

(** A call that fails has tried every way of completing the assignment
    it was given. *)
Lemma backtrack_fuel_failure fuel d a a' s :
  backtrack_fuel cw fuel d a = (Ret None, a') →
  solution cw d s → ¬ a ⊆ s.
Proof.
  intros H Hs. revert a a' H. induction fuel as [|fuel IH]; intros a a';
    simpl; [done|].
  destruct (assignment_complete d a); [done|].
  destruct (select_unassigned_variable cw d a) as [var| |] eqn:Hsel; [|done..].
  apply select_unassigned_variable_Ret in Hsel as [Hd Hvar%not_elem_of_dom].
  destruct (order_domain_values cw d var a) as [values| |] eqn:Hord; [|done..].
  apply order_domain_values_Ret in Hord as (ws & Hws & Hperm).
  intros Hloop Hsub. destruct Hs as (Hdom & Hdrawn & Hsat).
  assert (is_Some (s !! var)) as [w Hw] by (apply elem_of_dom; by rewrite Hdom).
  destruct (Hdrawn _ _ Hw) as (ws' & Hws' & Hin). simplify_eq.
  eapply (try_values_failure _ d var values a a' s); try done.
  - intros a1. apply backtrack_fuel_post.
  - by rewrite Hperm.
Qed.

Lemma try_values_returns rec d var values a :
  (∀ a1, backtrack_post cw d a1 (rec a1)) →
  a !! var = None →
  (∀ value, value ∈ values →
     (∃ b, consistent cw (<[var := value]> a) = Ret b) ∧
     ∃ o a', rec (<[var := value]> a) = (Ret o, a')) →
  ∃ o a', try_values cw rec var values a = (Ret o, a').
Proof.
  intros Hpost Ha. induction values as [|value values IH]; simpl; intros Hv;
    [eauto|].
  assert (delete var (<[var := value]> a) = a) as Hundo
    by by apply delete_insert_id.
  assert (∃ o a', try_values cw rec var values a = (Ret o, a')) as Hrest.
  { apply IH. intros w ?. apply Hv. by right. }
  destruct (Hv value) as [[b ->] (o & a2 & Hr)]; [left|].
  destruct b; [|by rewrite Hundo].
  specialize (Hpost (<[var := value]> a)). unfold backtrack_post in Hpost.
  rewrite Hr in *. simpl in Hpost. destruct o as [r|]; [eauto|].
  subst a2. by rewrite Hundo.
Qed.

(** On a well-formed graph and node-consistent domains the search raises
    nothing, and its recursion is no deeper than the number of variables
    still to assign. *)
Lemma backtrack_fuel_returns fuel d a :
  well_formed cw → dom d = variables cw → node_consistent d →
  drawn_from d a → size (dom d ∖ dom a) < fuel →
  ∃ o a', backtrack_fuel cw fuel d a = (Ret o, a').
Proof.
  intros Hwf Hdom Hnode. revert a.
  induction fuel as [|fuel IH]; intros a Hdrawn Hfuel; [lia|]. simpl.
  destruct (assignment_complete d a) eqn:Hc; [eauto|].
  destruct (select_unassigned_variable_returns d a Hc) as [var Hsel].
  rewrite Hsel.
  apply select_unassigned_variable_Ret in Hsel as [Hd Hvar].
  destruct (order_domain_values_returns d var a) as [values Hord]; [done..|].
  rewrite Hord. apply order_domain_values_Ret in Hord as (ws & Hws & Hperm).
  apply try_values_returns with d.
  { intros a1. apply backtrack_fuel_post. }
  { by apply not_elem_of_dom. }
  intros value Hvalue. rewrite Hperm in Hvalue.
  assert (drawn_from d (<[var := value]> a)) as Hdrawn1.
  { intros v w Hv. destruct (decide (var = v)) as [<-|Hne].
    - rewrite lookup_insert_eq in Hv. simplify_eq. eauto.
    - rewrite lookup_insert_ne in Hv by done. by apply Hdrawn. }
  split.
  - apply consistent_returns. intros v1 w1 v2 w2 i j Hv1 Hv2 Hne Ho.
    destruct (Hdrawn1 _ _ Hv1) as (ws1 & Hws1 & Hw1).
    destruct (Hdrawn1 _ _ Hv2) as (ws2 & Hws2 & Hw2).
    rewrite (Hnode _ _ _ Hws1 Hw1), (Hnode _ _ _ Hws2 Hw2).
    destruct (Hwf v1 v2 i j) as (? & ? & _); try done.
    + rewrite <-Hdom. by apply elem_of_dom_2 in Hws1.
    + rewrite <-Hdom. by apply elem_of_dom_2 in Hws2.
  - apply IH; [done|].
    assert (dom d ∖ dom (<[var := value]> a) ⊂ dom d ∖ dom a) as Hlt.
    { rewrite dom_insert_L. split.
      - intros v. rewrite !elem_of_difference, elem_of_union.
        intros [? Hn]. split; [done|]. intros ?. apply Hn. by right.
      - intros Hsub. specialize (Hsub var).
        rewrite !elem_of_difference, elem_of_union, elem_of_singleton in Hsub.
        destruct Hsub as [_ Hn]; [done|]. apply Hn. by left. }
    apply subset_size in Hlt. lia.
Qed.

(** *** The fuel of the search is never exhausted *)

Lemma bind_fuel {A B} (m : res A) (f : A → res B) :
  m ≠ OutOfFuel → (∀ x, f x ≠ OutOfFuel) → m ≫= f ≠ OutOfFuel.
Proof. intros Hm Hf. destruct m; simpl; auto. Qed.

Lemma index_fuel w i : index w i ≠ OutOfFuel.
Proof. unfold index. by destruct (String.get i w). Qed.

Lemma getitem_fuel {V} (m : gmap Var V) v : getitem m v ≠ OutOfFuel.
Proof. unfold getitem. by destruct (m !! v). Qed.

Lemma sorted_fuel {K A} (lt : K → K → bool) (key : A → res K) (l : list A) :
  (∀ x, key x ≠ OutOfFuel) → sorted lt key l ≠ OutOfFuel.
Proof.
  intros Hkey. unfold sorted. apply bind_fuel; [|done].
  induction l as [|x l IH]; simpl; [done|].
  apply bind_fuel; [done|]. intros k. by apply bind_fuel.
Qed.

Lemma consistent_fuel a : consistent cw a ≠ OutOfFuel.
Proof.
  unfold consistent. generalize (map_to_list a) at 2. intros all.
  induction (map_to_list a) as [|[v1 w1] l IH]; simpl; [done|].
  case_decide; [done|]. apply bind_fuel; [|by intros []].
  clear IH. induction all as [|[v2 w2] all IH]; simpl; [done|].
  repeat case_decide; try done.
  destruct (overlaps cw v1 v2) as [[i j]|]; [|done].
  apply bind_fuel; [apply index_fuel|]. intros c1.
  apply bind_fuel; [apply index_fuel|]. intros c2. by case_decide.
Qed.

Lemma order_domain_values_fuel d var a :
  order_domain_values cw d var a ≠ OutOfFuel.
Proof.
  unfold order_domain_values. apply bind_fuel; [apply getitem_fuel|].
  intros ws. apply sorted_fuel. intros word. unfold count_removed_in_neighbors.
  generalize 0. induction (elements (neighbors cw var ∖ dom a)) as [|n ns IH];
    intros count; simpl; [done|].
  apply bind_fuel; [apply getitem_fuel|]. intros wsn.
  apply bind_fuel; [|done]. clear IH. revert count.
  induction wsn as [|w wsn IH]; intros count; simpl; [done|].
  apply bind_fuel; [|done]. unfold rules_out. case_decide; [done|].
  destruct (overlaps cw var n) as [[i j]|]; [|done].
  apply bind_fuel; [apply index_fuel|]. intros c1.
  by apply bind_fuel; [apply index_fuel|].
Qed.

Lemma select_unassigned_variable_fuel d a :
  select_unassigned_variable cw d a ≠ OutOfFuel.
Proof.
  unfold select_unassigned_variable. apply bind_fuel; [|by intros []].
  apply sorted_fuel. intros v. by apply bind_fuel; [apply getitem_fuel|].
Qed.

Lemma try_values_fuel rec d var values a :
  (∀ a1, backtrack_post cw d a1 (rec a1)) →
  a !! var = None →
  (∀ value, (rec (<[var := value]> a)).1 ≠ OutOfFuel) →
  (try_values cw rec var values a).1 ≠ OutOfFuel.
Proof.
  intros Hpost Ha Hrec. induction values as [|value values IH]; simpl; [done|].
  assert (delete var (<[var := value]> a) = a) as Hundo
    by by apply delete_insert_id.
  pose proof (consistent_fuel (<[var := value]> a)) as Hc.
  destruct (consistent cw (<[var := value]> a)) as [[]| |];
    [|by rewrite Hundo|done..].
  specialize (Hpost (<[var := value]> a)). specialize (Hrec value).
  unfold backtrack_post in Hpost.
  destruct (rec (<[var := value]> a)) as [[[r|]| |] a2]; simpl in *; try done.
  subst a2. by rewrite Hundo.
Qed.

(** Whatever the graph and the store, a call of [backtrack] ends by
    returning or by raising: the recursion is never cut short. *)
Lemma backtrack_fuel_enough fuel d a :
  size (dom d ∖ dom a) < fuel → (backtrack_fuel cw fuel d a).1 ≠ OutOfFuel.
Proof.
  revert a. induction fuel as [|fuel IH]; intros a Hfuel; [lia|]. simpl.
  destruct (assignment_complete d a); [done|].
  pose proof (select_unassigned_variable_fuel d a) as Hsel.
  destruct (select_unassigned_variable cw d a) as [var| |] eqn:Hvar; [|done..].
  apply select_unassigned_variable_Ret in Hvar as [Hd Hvar].
  pose proof (order_domain_values_fuel d var a) as Hord.
  destruct (order_domain_values cw d var a) as [values| |]; [|done..].
  apply try_values_fuel with d.
  - intros a1. apply backtrack_fuel_post.
  - by apply not_elem_of_dom.
  - intros value. apply IH.
    assert (dom d ∖ dom (<[var := value]> a) ⊂ dom d ∖ dom a) as Hlt.
    { rewrite dom_insert_L. split.
      - intros v. rewrite !elem_of_difference, elem_of_union.
        intros [? Hn]. split; [done|]. intros ?. apply Hn. by right.
      - intros Hsub. specialize (Hsub var).
        rewrite !elem_of_difference, elem_of_union, elem_of_singleton in Hsub.
        destruct Hsub as [_ Hn]; [done|]. apply Hn. by left. }
    apply subset_size in Hlt. lia.
Qed.

Lemma backtrack_returns_or_raises d a : (backtrack cw d a).1 ≠ OutOfFuel.
Proof. apply backtrack_fuel_enough. lia. Qed.

Lemma backtrack_success d r a' :
  backtrack cw d ∅ = (Ret (Some r), a') → a' = r ∧ solution cw d r.
Proof.
  intros H. pose proof (backtrack_fuel_post (S (size (dom d ∖ dom (∅ : Assignment)))) d ∅) as Hp.
  unfold backtrack in H. unfold backtrack_post in Hp. rewrite H in Hp.
  simpl in Hp. destruct Hp as (-> & Hcomplete & _ & Hcons & Hdrawn).
  assert (drawn_from d r) as Hdrawn'.
  { intros v w Hv. by destruct (Hdrawn v w Hv) as [?%lookup_empty_Some|]. }
  split; [done|]. split; [|split; [done|]].
  - apply set_eq. intros v. split; [|by apply Hcomplete].
    intros [w Hw]%elem_of_dom. destruct (Hdrawn' v w Hw) as (ws & Hws & _).
    by apply elem_of_dom_2 in Hws.
  - destruct Hcons as [->|?]; [|by apply consistent_true].
    by intros v w ?%lookup_empty_Some.
Qed.

(** C3: the search is complete.  On a well-formed graph and a
    node-consistent store, as the one propagation leaves, if some
    complete assignment drawn from the domains satisfies the length,
    distinctness and overlap constraints, then [backtrack], started on
    the empty assignment, returns such an assignment. *)
Theorem backtrack_complete d :
  well_formed cw → dom d = variables cw → node_consistent d →
  (∃ s, solution cw d s) →
  ∃ r, backtrack cw d ∅ = (Ret (Some r), r) ∧ solution cw d r.
Proof.
  intros Hwf Hdom Hnode [s Hs].
  destruct (backtrack_fuel_returns (S (size (dom d ∖ dom (∅ : Assignment)))) d ∅)
    as (o & a' & H); [done..| |lia|].
  { by intros v w ?%lookup_empty_Some. }
  fold (backtrack cw d ∅) in H. destruct o as [r|].
  - destruct (backtrack_success _ _ _ H) as [-> ?]. eauto.
  - destruct (backtrack_fuel_failure _ _ _ _ _ H Hs). apply map_empty_subseteq.
Qed.

(** *** The entry point *)

Lemma solve_result d r :
  result (solve cw d) = Ret (Some r) →
  ∃ d2 a', shrinks d d2 ∧ backtrack cw d2 ∅ = (Ret (Some r), a').
Proof.
  unfold solve.
  pose proof (ac3_shrinks None (enforce_node_consistency d)) as Hac.
  pose proof (enforce_node_consistency_shrinks d) as Hnode.
  destruct (ac3 cw None (enforce_node_consistency d)) as [[b| |] d2];
    simpl in *; [|done..].
  intros H. exists d2, (backtrack cw d2 ∅).2. split; [by eapply shrinks_trans|].
  by destruct (backtrack cw d2 ∅) as [o a']; simpl in *; subst.
Qed.

(** The store that [solve] hands to the search has the keys of the store
    it started from and is node-consistent. *)
Lemma solve_final_domains_node_consistent d :
  dom (final_domains (solve cw d)) = dom d ∧
  node_consistent (final_domains (solve cw d)).
Proof.
  rewrite solve_final_domains.
  pose proof (ac3_shrinks None (enforce_node_consistency d)) as Hac.
  split.
  - destruct Hac as [-> _]. apply enforce_node_consistency_dom.
  - eapply shrinks_node_consistent; [done|].
    apply enforce_node_consistency_node_consistent.
Qed.

Lemma solve_returns_or_raises d : result (solve cw d) ≠ OutOfFuel.
Proof.
  unfold solve. pose proof (ac3_returns None (enforce_node_consistency d)) as Hac.
  destruct (ac3 cw None (enforce_node_consistency d)) as [[b| |] d2];
    simpl in *; [|done..].
  apply backtrack_returns_or_raises.
Qed.

(** C2: an assignment returned by [solve] binds every variable of the
    store, and (1) each bound word has the length of its variable, (2) no
    two different variables are bound to the same word, and (3) two
    different variables with an overlap [(ix, iy)] are bound to words
    that agree at the offsets [ix] and [iy]. *)
Theorem solve_returns_consistent d a :
  result (solve cw d) = Ret (Some a) →
  dom a = dom d ∧
  (∀ v w, a !! v = Some w → String.length w = var_length v) ∧
  (∀ v1 v2 w1 w2, v1 ≠ v2 → a !! v1 = Some w1 → a !! v2 = Some w2 → w1 ≠ w2) ∧
  (∀ v1 v2 w1 w2 ix iy, v1 ≠ v2 → a !! v1 = Some w1 → a !! v2 = Some w2 →
     overlaps cw v1 v2 = Some (ix, iy) → letters_agree w1 ix w2 iy).
Proof.
  intros (d2 & a' & [Hdom _] & H)%solve_result.
  apply backtrack_success in H as (_ & Hdom' & _ & Hsat).
  split; [congruence|]. split; [|split].
  - intros v w Hv. by destruct (Hsat v w Hv).
  - intros v1 v2 w1 w2 Hne Hv1 Hv2. destruct (Hsat v1 w1 Hv1) as [_ Hpair].
    by destruct (Hpair v2 w2 Hv2 Hne).
  - intros v1 v2 w1 w2 ix iy Hne Hv1 Hv2. destruct (Hsat v1 w1 Hv1) as [_ Hpair].
    destruct (Hpair v2 w2 Hv2 Hne) as [_ Hagree]. apply Hagree.
Qed.

Lemma ac3_loop_failure_empties fuel (stack : list (Var * Var)) d d' :
  ac3_loop cw fuel stack d = (Ret false, d') → ∃ x, d' !! x = Some [].
Proof.
  revert stack d. induction fuel as [|fuel IH]; intros stack d; simpl; [done|].
  destruct stack as [|[x y] stack]; [done|].
  destruct (revise cw x y d) as [[[]| |] d1]; [|by apply IH|done..].
  destruct (d1 !! x) as [xs|] eqn:Hx; [|done]. case_decide as Hlen; [|by apply IH].
  intros [= <-]. apply nil_length_inv in Hlen as ->. eauto.
Qed.

(** C1, as the code has it: [solve] drops what [ac3] returns.  Whatever
    truth value [ac3] returns, the next and last call of [solve] is
    [backtrack] on the empty assignment, on the store [ac3] left, and
    [solve] returns what that call returns.  On a well-formed graph, when
    AC-3 reports infeasibility that search returns the failure marker,
    which is what [solve] returns.  Only an exception escaping from [ac3]
    keeps [backtrack] from being called; [solve] then ends with it. *)
Theorem solve_after_ac3_failure d r d2 :
  ac3 cw None (enforce_node_consistency d) = (r, d2) →
  (∀ b, r = Ret b →
     calls (solve cw d) =
       [CallEnforceNodeConsistency; CallAc3 (Ret b);
        CallBacktrack d2 ∅ (backtrack cw d2 ∅).1] ∧
     result (solve cw d) = (backtrack cw d2 ∅).1) ∧
  (r = Ret false → well_formed cw → dom d = variables cw →
     (backtrack cw d2 ∅).1 = Ret None ∧
     calls (solve cw d) =
       [CallEnforceNodeConsistency; CallAc3 (Ret false);
        CallBacktrack d2 ∅ (Ret None)] ∧
     result (solve cw d) = Ret None) ∧
  (∀ e, r = Raise e →
     calls (solve cw d) = [CallEnforceNodeConsistency; CallAc3 (Raise e)] ∧
     result (solve cw d) = Raise e) ∧
  r ≠ OutOfFuel.
Proof.
  intros Hac3.
  assert (∀ b, r = Ret b →
     calls (solve cw d) =
       [CallEnforceNodeConsistency; CallAc3 (Ret b);
        CallBacktrack d2 ∅ (backtrack cw d2 ∅).1] ∧
     result (solve cw d) = (backtrack cw d2 ∅).1) as Hcalls.
  { intros b ->. unfold solve. by rewrite Hac3. }
  split; [exact Hcalls|]. split; [|split].
  - intros -> Hwf Hdom. destruct (Hcalls false eq_refl) as [-> ->].
    pose proof (ac3_shrinks None (enforce_node_consistency d)) as Hac.
    pose proof (enforce_node_consistency_shrinks d) as Hen.
    rewrite Hac3 in Hac. simpl in Hac.
    apply ac3_loop_failure_empties in Hac3 as [x Hx].
    destruct (backtrack_fuel_returns (S (size (dom d2 ∖ dom (∅ : Assignment)))) d2 ∅)
      as (o & a' & H); [done|..].
    { destruct Hac as [-> _], Hen as [-> _]. done. }
    { eapply shrinks_node_consistent; [done|].
      apply enforce_node_consistency_node_consistent. }
    { by intros v w ?%lookup_empty_Some. }
    { lia. }
    fold (backtrack cw d2 ∅) in H. rewrite H. simpl.
    destruct o as [s|]; [|done].
    apply backtrack_success in H as (_ & Hdom2 & Hdrawn & _).
    assert (is_Some (s !! x)) as [w Hw].
    { apply elem_of_dom. rewrite Hdom2. by apply elem_of_dom_2 in Hx. }
    destruct (Hdrawn _ _ Hw) as (ws & Hws & Hin). simplify_eq.
    by apply elem_of_nil in Hin.
  - intros e ->. unfold solve. by rewrite Hac3.
  - intros ->. by apply (ac3_returns None (enforce_node_consistency d)); rewrite Hac3.
Qed.

(** *** The whole pipeline on a well-formed graph *)

Lemma revise_returns x y d :
  well_formed cw → dom d = variables cw → node_consistent d →
  x ∈ variables cw → y ∈ variables cw → x ≠ y →
  ∃ b d', revise cw x y d = (Ret b, d').
Proof.
  intros Hwf Hdom Hnode Hx Hy Hne. unfold revise.
  destruct (overlaps cw x y) as [[ix iy]|] eqn:Ho; [|eauto].
  destruct (Hwf x y ix iy) as (Hix & Hiy & _); [done..|].
  rewrite <-Hdom in Hx, Hy.
  apply elem_of_dom in Hx as [xs Hxs], Hy as [ys Hys]. rewrite Hxs.
  apply getitem_Ret in Hys as Hget. rewrite Hget.
  destruct (revise_keep_returns ix iy xs ys) as [keep ->]; [..|eauto].
  - apply Forall_forall. intros w Hw. by rewrite (Hnode _ _ _ Hxs Hw).
  - apply Forall_forall. intros w Hw. by rewrite (Hnode _ _ _ Hys Hw).
Qed.

Lemma ac3_loop_raises_nothing fuel (stack : list (Var * Var)) d e :
  well_formed cw → dom d = variables cw → node_consistent d →
  Forall (λ arc, arc.1 ∈ variables cw ∧ arc.2 ∈ variables cw ∧ arc.1 ≠ arc.2)
    stack →
  (ac3_loop cw fuel stack d).1 ≠ Raise e.
Proof.
  intros Hwf. revert stack d.
  induction fuel as [|fuel IH]; intros stack d Hdom Hnode Hstack; [done|].
  simpl. destruct stack as [|[x y] stack]; [done|].
  apply Forall_cons in Hstack as [(Hx & Hy & Hne) Hstack]. simpl in *.
  destruct (revise_returns x y d) as (b & d1 & Hr); [done..|].
  pose proof (revise_shrinks x y d) as Hshrink. rewrite Hr in *. simpl in *.
  assert (dom d1 = variables cw) as Hdom1 by (destruct Hshrink; congruence).
  assert (node_consistent d1) as Hnode1 by by eapply shrinks_node_consistent.
  destruct b; [|by apply IH].
  assert (is_Some (d1 !! x)) as [xs ->] by (apply elem_of_dom; by rewrite Hdom1).
  case_decide; [done|]. apply IH; [done..|].
  apply Forall_forall. intros arc [?|(z & Hz & ->)]%append_arcs_elem_of.
  - by eapply Forall_forall in Hstack.
  - apply elem_of_elements, elem_of_difference in Hz as [Hz _].
    apply elem_of_filter in Hz as [[? _] ?]. done.
Qed.

Lemma ac3_loop_preserves_solution fuel (stack : list (Var * Var)) d b d' s :
  Forall (λ arc, arc.1 ≠ arc.2) stack →
  ac3_loop cw fuel stack d = (Ret b, d') →
  solution cw d s → solution cw d' s.
Proof.
  revert stack d. induction fuel as [|fuel IH]; intros stack d Hstack; [done|].
  simpl. destruct stack as [|[x y] stack]; [by intros [= _ <-]|].
  apply Forall_cons in Hstack as [Hxy Hstack]. simpl in Hxy.
  destruct (revise cw x y d) as [[b1| |] d1] eqn:Hr; [|done..].
  intros Hloop Hs.
  pose proof (revise_preserves_solution _ _ _ _ _ _ Hxy Hr Hs) as Hs1.
  destruct b1; [|by eapply IH].
  destruct (d1 !! x) as [xs|]; [|done]. case_decide; [by injection Hloop as _ <-|].
  eapply IH; [|done..].
  apply Forall_forall. intros arc [?|(z & Hz & ->)]%append_arcs_elem_of.
  - by eapply Forall_forall in Hstack.
  - apply elem_of_elements, elem_of_difference in Hz as [Hz _].
    by apply neighbors_ne in Hz.
Qed.

Lemma enforce_node_consistency_preserves_solution d s :
  solution cw d s → solution cw (enforce_node_consistency d) s.
Proof.
  intros (Hdom & Hdrawn & Hsat). split; [|split; [|done]].
  - by rewrite enforce_node_consistency_dom.
  - intros v w Hv. destruct (Hdrawn v w Hv) as (ws & Hws & Hw).
    rewrite enforce_node_consistency_lookup, Hws. eexists. split; [done|].
    apply list_elem_of_filter. split; [|done]. by destruct (Hsat v w Hv).
Qed.

Lemma shrinks_solution d d' s : shrinks d d' → solution cw d' s → solution cw d s.
Proof.
  intros [Hdom Hsub] (Hdom' & Hdrawn & Hsat). split; [congruence|]. split; [|done].
  intros v w Hv. destruct (Hdrawn v w Hv) as (ws' & Hws' & Hw).
  assert (is_Some (d !! v)) as [ws Hws].
  { apply elem_of_dom. rewrite <-Hdom. by apply elem_of_dom_2 in Hws'. }
  exists ws. split; [done|]. by apply (Hsub _ _ _ Hws Hws').
Qed.

(** On a well-formed graph [solve] raises nothing, and it returns a
    solution whenever the store it starts from has one. *)
Lemma solve_complete d :
  well_formed cw → dom d = variables cw →
  (∃ s, solution cw d s) →
  ∃ r, result (solve cw d) = Ret (Some r) ∧ solution cw d r.
Proof.
  intros Hwf Hdom [s Hs%enforce_node_consistency_preserves_solution].
  pose proof (solve_final_domains_node_consistent d) as [Hdom2 Hnode2].
  pose proof (domains_shrink_in_solve d) as Hshrink.
  unfold solve in *.
  pose proof (ac3_returns None (enforce_node_consistency d)) as Hfuel.
  pose proof (ac3_loop_raises_nothing
    (ac3_fuel cw (initial_arcs cw (enforce_node_consistency d))
       (enforce_node_consistency d))
    (reverse (initial_arcs cw (enforce_node_consistency d)))
    (enforce_node_consistency d)) as Hraise.
  fold (ac3 cw None (enforce_node_consistency d)) in Hraise.
  assert (Forall (λ arc, arc.1 ≠ arc.2)
            (reverse (initial_arcs cw (enforce_node_consistency d)))) as Harcs.
  { apply Forall_forall. intros [x y] Hin. rewrite elem_of_reverse in Hin.
    apply initial_arcs_elem_of in Hin as [_ Hy]. simpl. intros ->.
    by apply neighbors_ne in Hy. }
  destruct (ac3 cw None (enforce_node_consistency d)) as [[b| |] d2] eqn:Hac;
    simpl in *; [| |done].
  2:{ destruct (Hraise e); try done.
      - by rewrite enforce_node_consistency_dom.
      - apply enforce_node_consistency_node_consistent.
      - apply Forall_forall. intros [x y] Hin. rewrite elem_of_reverse in Hin.
        apply initial_arcs_elem_of in Hin as [Hx Hy]. simpl.
        rewrite enforce_node_consistency_dom, Hdom in Hx.
        apply elem_of_filter in Hy as [[? _] ?]. auto. }
  apply ac3_loop_preserves_solution with (s := s) in Hac; [|done..].
  destruct (backtrack_fuel_returns (S (size (dom d2 ∖ dom (∅ : Assignment)))) d2 ∅)
    as (o & a' & Hbt); [done|congruence|done| |lia|].
  { by intros v w ?%lookup_empty_Some. }
  fold (backtrack cw d2 ∅) in Hbt. rewrite Hbt. simpl. destruct o as [r|].
  - apply backtrack_success in Hbt as [_ Hsol]. exists r.
    split; [done|]. by eapply shrinks_solution.
  - destruct (backtrack_fuel_failure _ _ _ _ _ Hbt Hac). apply map_empty_subseteq.
Qed.

(** *** What the blended score selects *)

Lemma with_keys_Ret_fmap {K A} (key : A → res K) (f : A → K) (l : list A) :
  (∀ x, x ∈ l → key x = Ret (f x)) →
  with_keys key l = Ret ((λ x, (f x, x)) <$> l).
Proof.
  induction l as [|x l IH]; intros Hl; simpl; [done|].
  rewrite (Hl x) by left. simpl. rewrite IH; [done|].
  intros y ?. apply Hl. by right.
Qed.

Lemma keyed_snd {K A} (f : A → K) (l : list A) : ((λ x, (f x, x)) <$> l).*2 = l.
Proof. induction l as [|x l IH]; [done|]. rewrite !fmap_cons. by f_equal. Qed.

(** An element whose key is strictly below every other key is sorted
    first. *)
Lemma sort_by_key_head {K A} (lt : K → K → bool) (l : list (K * A)) (x : K * A) :
  NoDup l.*2 → x ∈ l →
  (∀ y, y ∈ l → y.2 ≠ x.2 → lt x.1 y.1 = true ∧ lt y.1 x.1 = false) →
  ∃ rest, sort_by_key lt l = x :: rest.
Proof.
  induction l as [|y l IH]; intros Hnodup Hx Hmin.
  { by apply elem_of_nil in Hx. }
  rewrite fmap_cons in Hnodup. apply NoDup_cons in Hnodup as [Hy Hnodup].
  simpl. apply elem_of_cons in Hx as [->|Hx].
  - destruct (sort_by_key lt l) as [|z rest] eqn:Hsort; simpl; [eauto|].
    assert (z ∈ l) as Hz by (rewrite <-(sort_by_key_perm lt l), Hsort; left).
    destruct (Hmin z) as [_ ->]; [by right| |eauto].
    intros Heq. apply Hy. rewrite <-Heq. by apply list_elem_of_fmap_2.
  - destruct IH as [rest ->]; [done..| |].
    { intros z ?. apply Hmin. by right. }
    simpl. destruct (Hmin y) as [-> _]; [left| |eauto].
    intros Heq. apply Hy. rewrite Heq. by apply list_elem_of_fmap_2.
Qed.

Lemma select_unassigned_variable_unique_minimum d a var (remaining : Var → nat) :
  var ∈ dom d ∖ dom a →
  (∀ v, v ∈ dom d ∖ dom a → length <$> d !! v = Some (remaining v)) →
  (∀ v, v ∈ dom d ∖ dom a → v ≠ var →
     PrimFloat.ltb (score (remaining var) (size (neighbors cw var)))
                   (score (remaining v) (size (neighbors cw v))) = true ∧
     PrimFloat.ltb (score (remaining v) (size (neighbors cw v)))
                   (score (remaining var) (size (neighbors cw var))) = false) →
  select_unassigned_variable cw d a = Ret var.
Proof.
  intros Hvar Hremaining Hmin. unfold select_unassigned_variable, sorted.
  rewrite (with_keys_Ret_fmap _
    (λ v, score (remaining v) (size (neighbors cw v)))).
  2:{ intros v Hv%elem_of_elements. specialize (Hremaining v Hv).
      unfold getitem. destruct (d !! v) as [ws|]; [|done]. simpl in *.
      by injection Hremaining as <-. }
  simpl.
  destruct (sort_by_key_head PrimFloat.ltb
    ((λ v, (score (remaining v) (size (neighbors cw v)), v))
       <$> elements (dom d ∖ dom a))
    (score (remaining var) (size (neighbors cw var)), var)) as [rest ->];
    [| | |done].
  - rewrite keyed_snd. apply NoDup_elements.
  - apply (list_elem_of_fmap_2
      (λ v, (score (remaining v) (size (neighbors cw v)), v))).
    by apply elem_of_elements.
  - intros y (v & -> & Hv%elem_of_elements)%list_elem_of_fmap Hne. simpl in *.
    by apply Hmin.
Qed.

End properties.

(** ** The example puzzles *)

Section examples.

Lemma new_domains_dom cw : dom (new_domains cw) = variables cw.
Proof. apply dom_gset_to_gmap. Qed.

Lemma corner_well_formed x y vocabulary :
  0 < var_length x → 0 < var_length y →
  well_formed (corner_crossword x y vocabulary).
Proof.
  intros Hx Hy v1 v2 i j Hv1 Hv2 _. simpl in *. unfold corner.
  apply elem_of_union in Hv1, Hv2. rewrite !elem_of_singleton in Hv1, Hv2.
  case_decide as Hc; [|done]. intros [= <- <-].
  split; [by destruct Hv1 as [->| ->]|]. split; [by destruct Hv2 as [->| ->]|].
  rewrite decide_True; [eauto|]. tauto.
Qed.

(** *** Two words that cannot meet *)

Lemma mismatch_calls :
  calls (solve mismatch_puzzle (new_domains mismatch_puzzle)) =
  [CallEnforceNodeConsistency; CallAc3 (Ret false);
   CallBacktrack
     (ac3 mismatch_puzzle None
        (enforce_node_consistency (new_domains mismatch_puzzle))).2 ∅ (Ret None)].
Proof. vm_compute. reflexivity. Qed.

(** C1, as the specification states it, fails: on the puzzle whose two
    words disagree on the shared cell AC-3 reports infeasibility, and
    [solve] calls [backtrack] nevertheless. *)
Lemma solve_backtracks_after_ac3_failure :
  ¬ ∀ cw, let run := solve cw (new_domains cw) in
          CallAc3 (Ret false) ∈ calls run →
          ∀ d a r, CallBacktrack d a r ∉ calls run.
Proof.
  intros H.
  apply (H mismatch_puzzle) with
    (ac3 mismatch_puzzle None
       (enforce_node_consistency (new_domains mismatch_puzzle))).2 ∅ (Ret None);
    rewrite mismatch_calls, !elem_of_cons; auto.
Qed.

Lemma solve_after_ac3_failure_witness :
  let d := new_domains mismatch_puzzle in
  let d2 := (ac3 mismatch_puzzle None (enforce_node_consistency d)).2 in
  ac3 mismatch_puzzle None (enforce_node_consistency d) = (Ret false, d2) ∧
  d2 !! across3 = Some [] ∧
  calls (solve mismatch_puzzle d) =
    [CallEnforceNodeConsistency; CallAc3 (Ret false); CallBacktrack d2 ∅ (Ret None)] ∧
  result (solve mismatch_puzzle d) = Ret None.
Proof.
  intros d d2.
  assert (ac3 mismatch_puzzle None (enforce_node_consistency d) = (Ret false, d2))
    as Hac3 by (vm_compute; reflexivity).
  split; [exact Hac3|]. split; [vm_compute; reflexivity|].
  destruct (solve_after_ac3_failure mismatch_puzzle d (Ret false) d2 Hac3)
    as (_ & Hfailure & _).
  destruct Hfailure as (_ & Hcalls & Hresult);
    [reflexivity|apply corner_well_formed; simpl; lia|apply new_domains_dom|].
  split; [exact Hcalls|exact Hresult].
Defined.

Lemma ac3_failure_sound_witness :
  (ac3 mismatch_puzzle None
     (enforce_node_consistency (new_domains mismatch_puzzle))).1 = Ret false ∧
  ¬ ∃ s, solution mismatch_puzzle
           (enforce_node_consistency (new_domains mismatch_puzzle)) s.
Proof.
  split; [vm_compute; reflexivity|].
  apply (ac3_failure_sound mismatch_puzzle None _
           (ac3 mismatch_puzzle None
              (enforce_node_consistency (new_domains mismatch_puzzle))).2).
  - intros l [=].
  - vm_compute. reflexivity.
Defined.

(** *** The corner puzzle *)

Lemma solve_returns_consistent_witness :
  let p := corner_puzzle ["CAT"; "COW"; "DOG"] in
  let a : Assignment := <[across3 := "CAT"]> {[down3 := "COW"]} in
  result (solve p (new_domains p)) = Ret (Some a) ∧
  dom a = dom (new_domains p) ∧
  (∀ v w, a !! v = Some w → String.length w = var_length v) ∧
  (∀ v1 v2 w1 w2, v1 ≠ v2 → a !! v1 = Some w1 → a !! v2 = Some w2 → w1 ≠ w2) ∧
  (∀ v1 v2 w1 w2 ix iy, v1 ≠ v2 → a !! v1 = Some w1 → a !! v2 = Some w2 →
     overlaps p v1 v2 = Some (ix, iy) → letters_agree w1 ix w2 iy).
Proof.
  intros p a.
  assert (result (solve p (new_domains p)) = Ret (Some a)) as Hrun
    by (vm_compute; reflexivity).
  split; [exact Hrun|].
  exact (solve_returns_consistent p (new_domains p) a Hrun).
Defined.

Lemma corner_solution :
  let p := corner_puzzle ["CAT"; "COW"; "DOG"] in
  solution p (enforce_node_consistency (new_domains p))
    (<[across3 := "CAT"]> {[down3 := "COW"]}).
Proof.
  intros p. split; [|split].
  - rewrite enforce_node_consistency_dom, new_domains_dom. vm_compute. reflexivity.
  - intros v w [[<- <-]|[_ [<- <-]%lookup_singleton_Some]]%lookup_insert_Some;
      (eexists; split; [vm_compute; reflexivity|]); rewrite !elem_of_cons; auto.
  - apply consistent_true. vm_compute. reflexivity.
Qed.

Lemma backtrack_complete_witness :
  let p := corner_puzzle ["CAT"; "COW"; "DOG"] in
  let d := enforce_node_consistency (new_domains p) in
  ∃ r, backtrack p d ∅ = (Ret (Some r), r) ∧ solution p d r.
Proof.
  intros p d. apply (backtrack_complete p d).
  - apply corner_well_formed; simpl; lia.
  - unfold d. rewrite enforce_node_consistency_dom. apply new_domains_dom.
  - apply enforce_node_consistency_node_consistent.
  - eexists. apply corner_solution.
Defined.

Lemma revise_contract_witness :
  let p := corner_puzzle [] in
  let d : Domains := <[across3 := ["CAT"; "DOG"]]> {[down3 := ["COW"]]} in
  revise p across3 down3 d = (Ret true, <[across3 := ["CAT"]]> d) ∧
  revise p across3 across3 d = (Ret false, d).
Proof.
  intros p d. split.
  - apply (proj1 (revise_contract p d across3 down3) 0 0 ["CAT"; "DOG"] ["COW"]);
      try reflexivity; repeat constructor.
  - apply (proj2 (revise_contract p d across3 across3)). reflexivity.
Defined.

Lemma backtrack_failure_restores_witness :
  let p := corner_puzzle ["CAT"; "DOG"] in
  let a : Assignment := {[across3 := "CAT"]} in
  (backtrack_fuel p 2 (new_domains p) a).1 = Ret None ∧
  (backtrack_fuel p 2 (new_domains p) a).2 = a.
Proof.
  intros p a. split; [vm_compute; reflexivity|].
  apply (backtrack_failure_restores p 2 (new_domains p) a). vm_compute. reflexivity.
Defined.

Lemma ac3_true_with_empty_domains_witness :
  let p := corner_puzzle [] in
  let d := enforce_node_consistency (new_domains p) in
  ac3 p None d = (Ret true, d) ∧ d !! across3 = Some [].
Proof.
  intros p d. destruct (ac3_true_with_empty_domains p eq_refl) as [Hac3 Hempty].
  split; [exact Hac3|]. apply Hempty. apply elem_of_union_l, elem_of_singleton.
  reflexivity.
Defined.

(** *** The comb *)

Lemma comb_variables v :
  v ∈ variables comb ↔ v = hub ∨ ∃ k, v = tooth k ∧ k < 1101.
Proof.
  change (variables comb) with ({[hub]} ∪ list_to_set teeth : gset Var).
  rewrite elem_of_union, elem_of_singleton, elem_of_list_to_set.
  unfold teeth. rewrite list_elem_of_fmap.
  setoid_rewrite elem_of_seq. split; intros [?|(k & ? & ?)].
  - by left.
  - right. exists k. split; [done|lia].
  - by left.
  - right. exists k. split; [done|lia].
Qed.

Lemma comb_neighbors_hub : neighbors comb hub = list_to_set teeth.
Proof.
  apply set_eq. intros v. unfold neighbors.
  rewrite elem_of_filter, comb_variables, elem_of_list_to_set.
  unfold teeth. rewrite list_elem_of_fmap. setoid_rewrite elem_of_seq. split.
  - intros [[Hne _] [?|(k & ? & ?)]]; [done|]. exists k. split; [done|lia].
  - intros (k & -> & ?). split; [split; [done|by eexists]|].
    right. exists k. split; [done|lia].
Qed.

Lemma comb_neighbors_tooth k : neighbors comb (tooth k) = {[hub]}.
Proof.
  apply set_eq. intros v. unfold neighbors.
  rewrite elem_of_filter, comb_variables, elem_of_singleton. split.
  - intros [[_ Ho] [?|(k' & -> & _)]]; [done|]. by destruct Ho.
  - intros ->. split; [split; [done|by eexists]|by left].
Qed.

Lemma comb_degree_hub : size (neighbors comb hub) = 1101.
Proof.
  rewrite comb_neighbors_hub, size_list_to_set.
  - unfold teeth. by rewrite length_fmap, length_seq.
  - unfold teeth. apply NoDup_fmap_2_strong; [|apply NoDup_seq].
    intros k1 k2 _ _ [=]. lia.
Qed.

Lemma comb_store v :
  v ∈ variables comb →
  enforce_node_consistency (new_domains comb) !! v =
  Some (filter (λ word, String.length word = var_length v)
          [long_word "X"; long_word "Y"; "AB"]).
Proof.
  intros Hv. rewrite enforce_node_consistency_lookup.
  assert (new_domains comb !! v = Some (words comb)) as ->; [|reflexivity].
  apply lookup_gset_to_gmap_Some. split; [exact Hv|reflexivity].
Qed.

Lemma comb_store_hub :
  enforce_node_consistency (new_domains comb) !! hub =
  Some [long_word "X"; long_word "Y"].
Proof.
  rewrite comb_store; [reflexivity|]. rewrite comb_variables. by left.
Qed.

Lemma comb_store_tooth k :
  k < 1101 →
  enforce_node_consistency (new_domains comb) !! tooth k = Some ["AB"].
Proof.
  intros Hk. rewrite comb_store; [reflexivity|].
  rewrite comb_variables. right. by exists k.
Qed.

Lemma comb_scores :
  PrimFloat.ltb (score 2 1101) (score 1 1) = true ∧
  PrimFloat.ltb (score 1 1) (score 2 1101) = false.
Proof. split; vm_compute; reflexivity. Qed.

(** C5 fails on the comb.  After node consistency the ACROSS slot has
    two candidate words and 1101 neighbours, each DOWN slot one candidate
    word and one neighbour; the blended score of the ACROSS slot,
    [2 - 1101 * 0.001], is below the score [1 - 1 * 0.001] of a DOWN
    slot, so the first call of [select_unassigned_variable] returns the
    ACROSS slot, which does not have the fewest remaining values. *)
Theorem select_unassigned_variable_not_minimum_remaining_values :
  let d := enforce_node_consistency (new_domains comb) in
  select_unassigned_variable comb d ∅ = Ret hub ∧
  length <$> d !! hub = Some 2 ∧
  tooth 0 ∈ dom d ∖ dom (∅ : Assignment) ∧
  length <$> d !! tooth 0 = Some 1.
Proof.
  intros d.
  assert (∀ v, v ∈ dom d ∖ dom (∅ : Assignment) ↔ v ∈ variables comb) as Hdom.
  { intros v. unfold d.
    rewrite enforce_node_consistency_dom, new_domains_dom, dom_empty_L.
    rewrite elem_of_difference, elem_of_empty. tauto. }
  pose (remaining := λ v, if decide (v = hub) then 2 else 1).
  assert (hub ∈ dom d ∖ dom (∅ : Assignment)) as Hhub.
  { rewrite Hdom, comb_variables. left. reflexivity. }
  assert (∀ v, v ∈ dom d ∖ dom (∅ : Assignment) →
            length <$> d !! v = Some (remaining v)) as Hremaining.
  { intros v Hv. rewrite Hdom, comb_variables in Hv.
    destruct Hv as [->|(k & -> & Hk)]; unfold d, remaining.
    - rewrite comb_store_hub. reflexivity.
    - rewrite comb_store_tooth by done.
      rewrite decide_False by discriminate. reflexivity. }
  assert (∀ v, v ∈ dom d ∖ dom (∅ : Assignment) → v ≠ hub →
    PrimFloat.ltb (score (remaining hub) (size (neighbors comb hub)))
                  (score (remaining v) (size (neighbors comb v))) = true ∧
    PrimFloat.ltb (score (remaining v) (size (neighbors comb v)))
                  (score (remaining hub) (size (neighbors comb hub))) = false)
    as Hscores.
  { intros v Hv Hne. rewrite Hdom, comb_variables in Hv.
    destruct Hv as [->|(k & -> & Hk)]; [by destruct Hne|]. unfold remaining.
    rewrite decide_True by reflexivity. rewrite decide_False by discriminate.
    rewrite comb_degree_hub, comb_neighbors_tooth, size_singleton.
    apply comb_scores. }
  split; [|split; [|split]].
  - exact (select_unassigned_variable_unique_minimum comb d ∅ hub remaining
             Hhub Hremaining Hscores).
  - unfold d. rewrite comb_store_hub. reflexivity.
  - rewrite Hdom, comb_variables. right. exists 0. split; [reflexivity|lia].
  - unfold d. rewrite comb_store_tooth by lia. reflexivity.
Qed.

End examples.

(** ** Further properties of the propagation *)

Section propagation.
Context (cw : Crossword).
Implicit Types (d : Domains) (v : Var).

Lemma ac3_loop_fuel_mono fuel fuel' (stack : list (Var * Var)) d :
  (ac3_loop cw fuel stack d).1 ≠ OutOfFuel → fuel ≤ fuel' →
  ac3_loop cw fuel' stack d = ac3_loop cw fuel stack d.
Proof.
  revert fuel' stack d. induction fuel as [|fuel IH]; intros fuel' stack d H Hle;
    [done|].
  destruct fuel' as [|fuel']; [lia|]. simpl in *.
  destruct stack as [|[x y] stack]; [done|].
  destruct (revise cw x y d) as [[[]| |] d1]; try done.
  - destruct (d1 !! x) as [xs|]; [|done]. case_decide; [done|]. apply IH; [done|lia].
  - apply IH; [done|lia].
Qed.

(** The [while] loop of [ac3] ends within [len(arcs)] plus (words in the
    store) times (variables of the graph) iterations, whatever the graph
    and the store; running it for longer changes nothing. *)
Theorem ac3_iterations_bounded fuel (stack : list (Var * Var)) d :
  length stack + store_size d * size (variables cw) < fuel →
  (ac3_loop cw fuel stack d).1 ≠ OutOfFuel ∧
  ∀ fuel', fuel ≤ fuel' → ac3_loop cw fuel' stack d = ac3_loop cw fuel stack d.
Proof.
  intros Hfuel. pose proof (ac3_loop_terminates cw fuel stack d Hfuel) as Hend.
  split; [done|]. intros fuel' Hle. by apply ac3_loop_fuel_mono.
Qed.

Lemma revise_unchanged x y d d' :
  revise cw x y d = (Ret false, d') → d' = d.
Proof.
  intros [(_ & _ & ->)|(ix & iy & xs & keep & _ & Hx & Hk & Hb & ->)]%revise_Ret;
    [done|].
  symmetry in Hb. apply bool_decide_eq_false in Hb.
  assert (length keep = length xs) as Hlen by by destruct (decide (length keep = length xs)).
  apply revise_keep_Ret in Hk as [[-> ->]|(ys & _ & ->)]; [by apply insert_id|].
  apply filter_eq_length in Hlen. rewrite Hlen. by apply insert_id.
Qed.

(** After a revision of [x] against [y], the words left to [x] all have a
    partner in the domain of [y]. *)
Lemma revise_supported x y d b d' ix iy :
  x ≠ y → overlaps cw x y = Some (ix, iy) →
  revise cw x y d = (Ret b, d') → supported d' x y ix iy.
Proof.
  intros Hne Ho [(? & _)|(ix' & iy' & xs & keep & Ho' & Hx & Hk & _ & ->)]%revise_Ret;
    [congruence|].
  simplify_eq. intros xs' ys w. rewrite lookup_insert_eq, lookup_insert_ne by done.
  intros [= <-] Hy Hw.
  apply revise_keep_Ret in Hk as [[_ ->]|(ys' & Hy'%getitem_Ret & ->)];
    [by apply elem_of_nil in Hw|].
  simplify_eq. apply list_elem_of_filter in Hw as [Hw _].
  apply Exists_exists in Hw as (w2 & ? & ?). eauto.
Qed.

Lemma letters_agree_sym w i w2 j : letters_agree w i w2 j → letters_agree w2 j w i.
Proof. intros (c & ? & ?). by exists c. Qed.

Lemma ac3_loop_arc_consistent fuel (stack : list (Var * Var)) d d' :
  mirrored cw → dom d = variables cw →
  (∀ x y ix iy, x ∈ dom d → y ∈ dom d → x ≠ y →
     overlaps cw x y = Some (ix, iy) →
     (x, y) ∈ stack ∨ supported d x y ix iy) →
  ac3_loop cw fuel stack d = (Ret true, d') → arc_consistent cw d'.
Proof.
  intros Hmirror. revert stack d.
  induction fuel as [|fuel IH]; intros stack d Hdom Hinv; [done|]. simpl.
  destruct stack as [|[x y] stack].
  { intros [= <-] u v iu iv Hne Ho xs ys w Hu Hv.
    destruct (Hinv u v iu iv) as [[]%elem_of_nil|Hs]; try done.
    - by apply elem_of_dom_2 in Hu.
    - by apply elem_of_dom_2 in Hv.
    - by apply Hs. }
  destruct (revise cw x y d) as [[b| |] d1] eqn:Hr; [|done..].
  pose proof (revise_shrinks cw x y d) as [Hdom1 _]. rewrite Hr in Hdom1.
  simpl in Hdom1.
  destruct b.
  2:{ apply revise_unchanged in Hr as Heq. subst d1. apply IH; [done|].
      intros u v iu iv Hu Hv Hne Ho.
      destruct (Hinv u v iu iv) as [[[= -> ->]|?]%elem_of_cons|?]; auto.
      right. by eapply revise_supported. }
  destruct (d1 !! x) as [xs1|] eqn:Hx1; [|done]. case_decide; [done|].
  apply IH; [congruence|].
  intros u v iu iv Hu Hv Hne Ho. rewrite Hdom1 in Hu, Hv.
  apply revise_Ret in Hr as Hr'.
  destruct Hr' as [(_ & [=] & _)|(ix & iy & xs & keep & Hoxy & Hx & Hk & _ & ->)].
  assert (keep ⊆ xs) as Hsub by by eapply sublist_subseteq, revise_keep_sublist.
  destruct (decide (u = x)) as [->|Hux].
  - (* an arc out of [x]: fewer words to support *)
    destruct (decide (v = y)) as [->|Hvy].
    { right. by eapply revise_supported. }
    destruct (Hinv x v iu iv) as [Hin|Hs]; [done..| |].
    + apply elem_of_cons in Hin as [Heq|Hin]; [by simplify_eq|].
      left. apply append_arcs_elem_of. by left.
    + right. intros xs' ys w. rewrite lookup_insert_eq, lookup_insert_ne by done.
      intros [= <-] Hys Hw. apply (Hs xs ys w); auto.
  - destruct (decide (v = x)) as [->|Hvx].
    + (* an arc into [x] *)
      destruct (decide (u = y)) as [->|Huy].
      * destruct (Hinv y x iu iv) as [Hin|Hs]; [done..| |].
        { apply elem_of_cons in Hin as [Heq|Hin]; [by simplify_eq|].
          left. apply append_arcs_elem_of. by left. }
        right. intros ys xs' w2. rewrite lookup_insert_ne, lookup_insert_eq by done.
        intros Hys [= <-] Hw2.
        destruct (Hs ys xs w2) as (w & Hw & Hagree); [done..|].
        exists w. split; [|done].
        assert (overlaps cw x y = Some (iv, iu)) as Hoxy'.
        { apply Hmirror; try done; by rewrite <-Hdom. }
        simplify_eq.
        apply revise_keep_Ret in Hk as [[-> _]|(ys' & Hy'%getitem_Ret & ->)];
          [by apply elem_of_nil in Hw|].
        simplify_eq. apply list_elem_of_filter. split; [|done].
        apply Exists_exists. exists w2. split; [done|]. by apply letters_agree_sym.
      * left. apply append_arcs_elem_of. right. exists u. split; [|done].
        apply elem_of_elements, elem_of_difference. split.
        -- apply elem_of_filter. split; [|by rewrite <-Hdom]. eauto.
        -- by rewrite elem_of_singleton.
    + (* an arc that does not touch [x] *)
      destruct (Hinv u v iu iv) as [Hin|Hs]; [done..| |].
      * apply elem_of_cons in Hin as [Heq|Hin]; [by simplify_eq|].
        left. apply append_arcs_elem_of. by left.
      * right. intros xs' ys w. rewrite !lookup_insert_ne by done. apply Hs.
Qed.

(** When [ac3], started on all the arcs, returns [True], the store it
    leaves is arc consistent: across every overlap, each word left to a
    variable has a partner among the words left to the other.  The graph
    is taken to give an overlap from both of its ends with the offsets
    swapped. *)
Theorem ac3_enforces_arc_consistency d d' :
  mirrored cw → dom d = variables cw →
  ac3 cw None d = (Ret true, d') → arc_consistent cw d'.
Proof.
  intros Hmirror Hdom. unfold ac3. apply ac3_loop_arc_consistent; [done..|].
  intros x y ix iy Hx Hy Hne Ho. left.
  rewrite elem_of_reverse, initial_arcs_elem_of. split; [done|].
  apply elem_of_filter. rewrite Hdom in Hx, Hy. split; [|done]. split; [done|].
  rewrite (Hmirror x y ix iy); eauto.
Qed.

(** AC-3 on all the arcs neither loses nor invents a solution: the
    complete satisfying assignments drawn from the store it leaves are
    those drawn from the store it started from. *)
Theorem ac3_keeps_solutions d b d' s :
  ac3 cw None d = (Ret b, d') → solution cw d s ↔ solution cw d' s.
Proof.
  intros Hac. pose proof (ac3_shrinks cw None d) as Hshrink. rewrite Hac in Hshrink.
  split; [|by apply shrinks_solution].
  unfold ac3 in Hac. eapply ac3_loop_preserves_solution; [|done].
  apply Forall_forall. intros [x y] Hin. rewrite elem_of_reverse in Hin.
  apply initial_arcs_elem_of in Hin as [_ Hy]. simpl. intros ->.
  by apply neighbors_ne in Hy.
Qed.

(** On a well-formed graph and a node-consistent store keyed by its
    variables, [ac3] raises nothing. *)
Theorem ac3_raises_nothing d :
  well_formed cw → dom d = variables cw → node_consistent d →
  ∃ b d', ac3 cw None d = (Ret b, d').
Proof.
  intros Hwf Hdom Hnode. pose proof (ac3_returns cw None d) as Hfuel.
  assert (∀ e, (ac3 cw None d).1 ≠ Raise e) as Hraise.
  { intros e. unfold ac3. apply ac3_loop_raises_nothing; [done..|].
    apply Forall_forall. intros [x y] Hin. rewrite elem_of_reverse in Hin.
    apply initial_arcs_elem_of in Hin as [Hx Hy]. simpl. rewrite Hdom in Hx.
    apply elem_of_filter in Hy as [[? _] ?]. auto. }
  destruct (ac3 cw None d) as [[b|e|] d']; simpl in *; [eauto|by destruct (Hraise e)|done].
Qed.

Lemma ac3_loop_failure_emptied fuel (stack : list (Var * Var)) d d' :
  ac3_loop cw fuel stack d = (Ret false, d') →
  ∃ x xs, d !! x = Some xs ∧ xs ≠ [] ∧ d' !! x = Some [].
Proof.
  revert stack d. induction fuel as [|fuel IH]; intros stack d; simpl; [done|].
  destruct stack as [|[x y] stack]; [done|].
  destruct (revise cw x y d) as [[b| |] d1] eqn:Hr; [|done..].
  pose proof (revise_shrinks cw x y d) as [Hdom1 Hsub]. rewrite Hr in Hdom1, Hsub.
  simpl in *.
  assert (∀ z zs1, d1 !! z = Some zs1 → zs1 ≠ [] →
            ∃ zs, d !! z = Some zs ∧ zs ≠ []) as Hback.
  { intros z zs1 Hz1 Hne.
    assert (is_Some (d !! z)) as [zs Hz].
    { apply elem_of_dom. rewrite <-Hdom1. by apply elem_of_dom_2 in Hz1. }
    exists zs. split; [done|]. destruct (Hsub _ _ _ Hz Hz1) as [_ Hlen].
    intros ->. destruct zs1; [done|]. simpl in Hlen. lia. }
  destruct b.
  - destruct (d1 !! x) as [xs1|] eqn:Hx1; [|done]. case_decide as Hlen.
    + intros [= <-]. apply nil_length_inv in Hlen as ->.
      apply revise_Ret in Hr
        as [(_ & [=] & _)|(ix & iy & xs & keep & _ & Hx & _ & Hb & ->)].
      rewrite lookup_insert_eq in Hx1. simplify_eq.
      symmetry in Hb. apply bool_decide_eq_true in Hb.
      exists x, xs. split; [done|]. split; [by intros ->|]. apply lookup_insert_eq.
    + intros (z & zs1 & Hz1 & Hne & Hz')%IH.
      destruct (Hback z zs1) as (zs & ? & ?); eauto.
  - intros (z & zs1 & Hz1 & Hne & Hz')%IH.
    destruct (Hback z zs1) as (zs & ? & ?); eauto.
Qed.

(** [ac3] returns [False] only by emptying a domain: the store it leaves
    has a variable without words that had words when [ac3] was called. *)
Theorem ac3_failure_empties_a_domain arcs d d' :
  ac3 cw arcs d = (Ret false, d') →
  ∃ x xs, d !! x = Some xs ∧ xs ≠ [] ∧ d' !! x = Some [].
Proof. unfold ac3. apply ac3_loop_failure_emptied. Qed.

(** *** Arc revision *)

Lemma revise_keep_again ix iy xs ys keep :
  revise_keep ix iy xs (Ret ys) = Ret keep →
  revise_keep ix iy keep (Ret ys) = Ret keep.
Proof.
  revert keep. induction xs as [|x xs IH]; intros keep H; simpl in H.
  { by injection H as <-. }
  apply bind_Ret in H as (b & Hb & H). apply bind_Ret in H as (keep' & Hk & H).
  injection H as <-. specialize (IH _ Hk). destruct b; [|done].
  simpl. rewrite Hb. simpl. by rewrite IH.
Qed.

(** Revising the same arc a second time removes nothing and returns
    [False]. *)
Theorem revise_twice x y d b d' :
  x ≠ y → revise cw x y d = (Ret b, d') → revise cw x y d' = (Ret false, d').
Proof.
  intros Hne [(Ho & _ & ->)|(ix & iy & xs & keep & Ho & Hx & Hk & _ & ->)]%revise_Ret;
    unfold revise; rewrite Ho; [done|].
  rewrite lookup_insert_eq.
  assert (revise_keep ix iy keep (getitem (<[x := keep]> d) y) = Ret keep) as ->.
  { unfold getitem. rewrite lookup_insert_ne by done. fold (getitem d y).
    apply revise_keep_Ret in Hk as Hk'.
    destruct Hk' as [[-> ->]|(ys & Hy & _)]; [done|]. rewrite Hy in *.
    by apply revise_keep_again with xs. }
  rewrite insert_insert_eq. f_equal. f_equal. apply bool_decide_eq_false_2.
  intros H. by apply H.
Qed.

Lemma has_partner_raises ix iy w ys e :
  has_partner ix iy w ys = Raise e → e = IndexError.
Proof.
  induction ys as [|y ys IH]; simpl; [done|]. unfold index.
  destruct (String.get ix w); simpl; [|congruence].
  destruct (String.get iy y); simpl; [|congruence]. by case_decide.
Qed.

Lemma revise_keep_raises ix iy xs (r : res (list string)) e :
  revise_keep ix iy xs r = Raise e → r = Raise e ∨ e = IndexError.
Proof.
  induction xs as [|x xs IH]; simpl; [done|].
  destruct r as [ys| |]; simpl; [|auto|done].
  destruct (has_partner ix iy x ys) eqn:Hp; simpl; [|intros [= <-]|done].
  - destruct (revise_keep ix iy xs (Ret ys)); simpl; [done| |done].
    intros H. destruct (IH H) as [?|?]; [done|by right].
  - right. by eapply has_partner_raises.
Qed.

(** [revise] raises only for a variable that is not a key of the store
    ([KeyError]) or an offset outside a word ([IndexError]), and then
    leaves the store as it was. *)
Theorem revise_raises x y d e d' :
  revise cw x y d = (Raise e, d') →
  d' = d ∧ (e = KeyError ∧ (d !! x = None ∨ d !! y = None) ∨ e = IndexError).
Proof.
  unfold revise. destruct (overlaps cw x y) as [[ix iy]|]; [|done].
  destruct (d !! x) as [xs|] eqn:Hx; [|intros [= <- <-]; auto].
  destruct (revise_keep ix iy xs (getitem d y)) eqn:Hk; [done| |done].
  intros [= <- <-]. split; [done|].
  apply revise_keep_raises in Hk as [Hy|?]; [|auto].
  unfold getitem in Hy. destruct (d !! y); [done|]. injection Hy as <-. auto.
Qed.

(** Against an empty domain of [y], [revise] empties the domain of [x]
    without reading a letter, whatever the offsets. *)
Theorem revise_against_empty_domain x y d ix iy xs :
  overlaps cw x y = Some (ix, iy) → d !! x = Some xs → d !! y = Some [] →
  revise cw x y d = (Ret (bool_decide (xs ≠ [])), <[x := []]> d).
Proof.
  intros Ho Hx Hy. unfold revise. rewrite Ho, Hx. apply getitem_Ret in Hy as ->.
  assert (revise_keep ix iy xs (Ret []) = Ret []) as ->.
  { clear Hx. induction xs as [|w xs IH]; [done|]. simpl. by rewrite IH. }
  f_equal. f_equal. apply bool_decide_ext. destruct xs; simpl; split; done.
Qed.

(** *** Node consistency *)

(** [enforce_node_consistency] makes the store node-consistent, and the
    stores it leaves unchanged are exactly the node-consistent ones. *)
Theorem enforce_node_consistency_fixpoint d :
  node_consistent (enforce_node_consistency d) ∧
  (node_consistent d ↔ enforce_node_consistency d = d).
Proof.
  split; [apply enforce_node_consistency_node_consistent|]. split.
  - intros Hnode. apply map_eq. intros v.
    rewrite enforce_node_consistency_lookup.
    destruct (d !! v) as [ws|] eqn:Hv; [|done]. simpl. f_equal.
    assert (∀ w, w ∈ ws → String.length w = var_length v) as Hws
      by (intros; by eapply Hnode).
    clear Hv. induction ws as [|w ws IH]; [done|]. rewrite filter_cons.
    rewrite decide_True by (apply Hws; left). f_equal.
    apply IH. intros w' ?. apply Hws. by right.
  - intros Heq. rewrite <-Heq. apply enforce_node_consistency_node_consistent.
Qed.

(** The store with which the search of a new [CrosswordCreator] starts:
    node consistency leaves to each variable of the graph the words of the
    vocabulary that have its length, in the order of the vocabulary, and
    there are no other keys. *)
Theorem initial_node_consistent_store v :
  enforce_node_consistency (new_domains cw) !! v =
  if decide (v ∈ variables cw)
  then Some (filter (λ word, String.length word = var_length v) (words cw))
  else None.
Proof.
  rewrite enforce_node_consistency_lookup. unfold new_domains.
  rewrite lookup_gset_to_gmap. by case_decide; simplify_option_eq.
Qed.

End propagation.

(** ** Further properties of the search *)

Section search.
Context (cw : Crossword).
Implicit Types (d : Domains) (v : Var).

(** *** The consistency check *)

Lemma consistent_raises a e : consistent cw a = Raise e → e = IndexError.
Proof.
  unfold consistent. generalize (map_to_list a) at 2. intros all.
  induction (map_to_list a) as [|[v1 w1] l IH]; simpl; [done|].
  case_decide; [done|].
  assert (∀ e', consistent_with cw v1 w1 all = Raise e' → e' = IndexError) as Hwith.
  { clear. induction all as [|[v2 w2] all IH]; simpl; intros e'; [done|].
    repeat case_decide; try done; try apply IH.
    destruct (overlaps cw v1 v2) as [[i j]|]; [|apply IH]. unfold index.
    destruct (String.get i w1); simpl; [|congruence].
    destruct (String.get j w2); simpl; [|congruence].
    case_decide; [done|apply IH]. }
  destruct (consistent_with cw v1 w1 all) as [[]| |]; simpl; try done.
  intros [= <-]. by apply Hwith.
Qed.

(** [consistent] decides the three constraints.  Whenever it returns, it
    returns [True] exactly for the assignments whose bound words have the
    lengths of their variables, differ from one another and agree across
    every overlap; it returns whenever the offsets of the overlaps between
    bound variables lie inside the bound words; and all it can raise is
    [IndexError]. *)
Theorem consistent_decides a :
  (∀ b, consistent cw a = Ret b → b = true ↔ satisfies cw a) ∧
  ((∀ v1 w1 v2 w2 i j, a !! v1 = Some w1 → a !! v2 = Some w2 → v1 ≠ v2 →
      overlaps cw v1 v2 = Some (i, j) →
      i < String.length w1 ∧ j < String.length w2) →
   ∃ b, consistent cw a = Ret b) ∧
  (∀ e, consistent cw a = Raise e → e = IndexError).
Proof.
  split; [|split; [apply consistent_returns|apply consistent_raises]].
  intros [] Hb; split; try done.
  - intros _. by apply consistent_true.
  - intros Hsat. by apply consistent_false in Hb.
Qed.

(** *** Value ordering *)

Lemma with_keys_Forall {K A} (key : A → res K) (l : list A) kl :
  with_keys key l = Ret kl → Forall (λ p, key p.2 = Ret p.1) kl.
Proof.
  revert kl. induction l as [|x l IH]; intros kl H; simpl in H.
  { injection H as <-. constructor. }
  destruct (key x) as [k| |] eqn:Hk; simpl in H; [|done..].
  destruct (with_keys key l) as [kl'| |]; simpl in H; [|done..].
  injection H as <-. constructor; [done|]. by apply IH.
Qed.

Lemma insert_by_key_sorted {A} (x : nat * A) (l : list (nat * A)) :
  StronglySorted (λ p q, p.1 ≤ q.1) l →
  StronglySorted (λ p q, p.1 ≤ q.1) (insert_by_key Nat.ltb x l).
Proof.
  induction 1 as [|y l Hsorted IH Hy]; simpl; [repeat constructor|].
  destruct (Nat.ltb_spec y.1 x.1) as [Hlt|Hle].
  - constructor; [done|]. rewrite insert_by_key_perm. constructor; [lia|done].
  - constructor; [by constructor|]. constructor; [done|].
    eapply Forall_impl; [done|]. simpl. intros; lia.
Qed.

Lemma sort_by_key_sorted {A} (l : list (nat * A)) :
  StronglySorted (λ p q, p.1 ≤ q.1) (sort_by_key Nat.ltb l).
Proof.
  induction l as [|x l IH]; simpl; [constructor|]. by apply insert_by_key_sorted.
Qed.

Lemma StronglySorted_fst {A} (l : list (nat * A)) :
  StronglySorted (λ p q, p.1 ≤ q.1) l → StronglySorted le l.*1.
Proof.
  induction 1 as [|y l Hsorted IH Hy]; simpl; constructor; [done|].
  by apply Forall_fmap.
Qed.

(** [order_domain_values] returns the words of the domain of [var], each
    as often as it is there, in the order of the number of choices they
    rule out among the unassigned neighbours, the least first. *)
Theorem order_domain_values_sorted d var a values :
  order_domain_values cw d var a = Ret values →
  ∃ ws counts,
    d !! var = Some ws ∧ values ≡ₚ ws ∧
    Forall2 (λ word n,
      count_removed_in_neighbors cw d var word (neighbors cw var ∖ dom a) = Ret n)
      values counts ∧
    StronglySorted le counts.
Proof.
  intros Hord. pose proof (order_domain_values_Ret cw _ _ _ _ Hord) as (ws & Hws & Hperm).
  unfold order_domain_values, sorted in Hord. apply getitem_Ret in Hws as Hget.
  rewrite Hget in Hord. simpl in Hord.
  apply bind_Ret in Hord as (kl & Hkl & [= <-]).
  exists ws, (sort_by_key Nat.ltb kl).*1. split; [done|]. split; [done|]. split.
  - apply with_keys_Forall in Hkl. rewrite <-(sort_by_key_perm Nat.ltb kl) in Hkl.
    clear Hperm. revert Hkl. generalize (sort_by_key Nat.ltb kl). intros l Hl.
    induction Hl as [|[n word] l Hp _ IH]; simpl; constructor; done.
  - apply StronglySorted_fst, sort_by_key_sorted.
Qed.

Lemma sort_by_key_equal_keys {K A} (lt : K → K → bool) (k : K) (l : list A) :
  lt k k = false →
  sort_by_key lt ((λ x, (k, x)) <$> l) = (λ x, (k, x)) <$> l.
Proof.
  intros Hk. induction l as [|x l IH]; [done|]. rewrite fmap_cons. simpl.
  rewrite IH. destruct l as [|y l]; [done|]. rewrite fmap_cons. simpl. by rewrite Hk.
Qed.

(** For a variable whose neighbours are all assigned, and so for a
    variable without neighbours, [order_domain_values] returns the domain
    in the order it has in the store: every word counts 0 and the sort is
    stable. *)
Theorem order_domain_values_without_neighbors d var a ws :
  neighbors cw var ⊆ dom a → d !! var = Some ws →
  order_domain_values cw d var a = Ret ws.
Proof.
  intros Hsub Hws. unfold order_domain_values, sorted.
  apply getitem_Ret in Hws as ->. simpl.
  assert (neighbors cw var ∖ dom a = ∅) as ->.
  { apply set_eq. intros v. rewrite elem_of_difference, elem_of_empty.
    split; [|done]. intros [Hv Hn]. by apply Hn, Hsub. }
  rewrite (with_keys_Ret_fmap _ (λ _, 0)).
  2:{ intros word _. unfold count_removed_in_neighbors. by rewrite elements_empty. }
  simpl. rewrite sort_by_key_equal_keys by done. by rewrite keyed_snd.
Qed.

Lemma rules_out_Ret o word w b :
  rules_out o word w = Ret b → b = bool_decide (ruled_out o word w).
Proof.
  unfold rules_out, ruled_out. case_decide as Hw.
  { intros [= <-]. symmetry. apply bool_decide_eq_true_2. by left. }
  destruct o as [[i j]|]; [|done]. intros H.
  apply bind_Ret in H as (c1 & Hc1%index_Ret & H).
  apply bind_Ret in H as (c2 & Hc2%index_Ret & [= <-]).
  apply bool_decide_ext. split.
  - intros Hc. right. exists i, j. split; [done|]. intros (c & ? & ?). congruence.
  - intros [?|(i' & j' & [= <- <-] & Hno)] ->; [done|]. apply Hno. by exists c2.
Qed.

Lemma count_in_domain_Ret o word ws count n :
  count_in_domain o word ws count = Ret n →
  n = count + length (filter (ruled_out o word) ws).
Proof.
  revert count. induction ws as [|w ws IH]; intros count H; simpl in H.
  { injection H as <-. simpl. lia. }
  apply bind_Ret in H as (b & Hb%rules_out_Ret & H). apply IH in H as ->.
  rewrite filter_cons. subst b. case_bool_decide; case_decide; simpl; try done; lia.
Qed.

(** Whenever it returns, [count_removed_in_neighbors] has counted, for
    each of the given neighbours, the words in its domain that are the
    candidate word itself or disagree with it on the shared cell. *)
Theorem count_removed_in_neighbors_counts d var word (ns : gset Var) n :
  count_removed_in_neighbors cw d var word ns = Ret n →
  n = sum_list_with
        (λ neighbor,
           length (filter (ruled_out (overlaps cw var neighbor) word)
                     (default [] (d !! neighbor))))
        (elements ns).
Proof.
  unfold count_removed_in_neighbors.
  assert (∀ l count, count_removed_loop cw d var word l count = Ret n →
            n = count + sum_list_with
                  (λ neighbor,
                     length (filter (ruled_out (overlaps cw var neighbor) word)
                               (default [] (d !! neighbor)))) l) as Hloop.
  { induction l as [|nb l IH]; intros count H; simpl in H.
    { injection H as <-. simpl. lia. }
    apply bind_Ret in H as (ws & Hws%getitem_Ret & H).
    apply bind_Ret in H as (count' & Hc%count_in_domain_Ret & H).
    apply IH in H as ->. simpl. rewrite Hws. simpl. lia. }
  intros H. by apply Hloop in H as ->.
Qed.

(** *** Variable selection *)

(** [select_unassigned_variable] raises [IndexError] when every variable
    of the store is assigned, and otherwise returns a variable of the
    store that is not assigned. *)
Theorem select_unassigned_variable_outcome d a :
  if assignment_complete d a
  then select_unassigned_variable cw d a = Raise IndexError
  else ∃ var, select_unassigned_variable cw d a = Ret var ∧
              var ∈ dom d ∧ var ∉ dom a.
Proof.
  destruct (assignment_complete d a) eqn:Hc.
  - apply assignment_complete_true in Hc. unfold select_unassigned_variable.
    assert (dom d ∖ dom a = ∅) as ->; [|by rewrite elements_empty].
    apply set_eq. intros v. rewrite elem_of_difference, elem_of_empty.
    split; [|done]. intros [Hv Hn]. by apply Hn, Hc.
  - destruct (select_unassigned_variable_returns cw d a Hc) as [var Hvar].
    exists var. split; [done|]. by apply select_unassigned_variable_Ret in Hvar.
Qed.

(** *** Backtracking search *)

(** A successful call of [backtrack] returns the dictionary it was given,
    the same object, now complete: it keeps the bindings it received, the
    bindings it added are words of the domains of their variables, and
    unless nothing had to be added the whole satisfies the constraints. *)
Theorem backtrack_success_extends fuel d a r a' :
  backtrack_fuel cw fuel d a = (Ret (Some r), a') →
  a' = r ∧ a ⊆ r ∧ dom d ⊆ dom r ∧ (r = a ∨ satisfies cw r) ∧
  ∀ v w, r !! v = Some w → a !! v = Some w ∨ ∃ ws, d !! v = Some ws ∧ w ∈ ws.
Proof.
  intros H. pose proof (backtrack_fuel_post cw fuel d a) as Hpost.
  unfold backtrack_post in Hpost. rewrite H in Hpost. simpl in Hpost.
  destruct Hpost as (-> & Hcomplete & Hsub & Hcons & Hdrawn).
  repeat split; try done. destruct Hcons as [->|?%consistent_true]; auto.
Qed.

(** [backtrack] gives up only when nothing can be done: if it returns
    [None] for an assignment, no solution of the store extends that
    assignment. *)
Theorem backtrack_failure_exhaustive d a a' :
  backtrack cw d a = (Ret None, a') → ¬ ∃ s, solution cw d s ∧ a ⊆ s.
Proof.
  intros H (s & Hs & Hsub). by eapply backtrack_fuel_failure.
Qed.

(** *** The entry point *)

(** When [solve] returns [None], the store it was started on has no
    solution, whatever the graph. *)
Theorem solve_failure_sound d :
  result (solve cw d) = Ret None → ¬ ∃ s, solution cw d s.
Proof.
  intros H [s Hs%enforce_node_consistency_preserves_solution]. unfold solve in H.
  destruct (ac3 cw None (enforce_node_consistency d)) as [[b| |] d2] eqn:Hac;
    simpl in H; [|done..].
  apply ac3_loop_preserves_solution with (s := s) in Hac; [|simpl|done].
  - destruct (backtrack cw d2 ∅) as [o a'] eqn:Hbt. simpl in H. subst o.
    eapply backtrack_fuel_failure; [done..|]. apply map_empty_subseteq.
  - apply Forall_forall. intros [x y] Hin. rewrite elem_of_reverse in Hin.
    apply initial_arcs_elem_of in Hin as [_ Hy]. simpl. intros ->.
    by apply neighbors_ne in Hy.
Qed.

(** The assignment [solve] returns for a new [CrosswordCreator] binds
    exactly the variables of the graph, each to a word of the vocabulary
    that has the length of the variable. *)
Theorem solve_uses_vocabulary r :
  result (solve cw (new_domains cw)) = Ret (Some r) →
  dom r = variables cw ∧
  ∀ v w, r !! v = Some w → w ∈ words cw ∧ String.length w = var_length v.
Proof.
  intros (d2 & a' & Hshrink & H)%solve_result.
  apply backtrack_success in H as [_ Hsol].
  apply (shrinks_solution cw _ _ _ Hshrink) in Hsol as (Hdom & Hdrawn & Hsat).
  split; [by rewrite Hdom, new_domains_dom|]. intros v w Hv.
  destruct (Hdrawn v w Hv) as (ws & Hws & Hw), (Hsat v w Hv) as [Hlen _].
  apply lookup_gset_to_gmap_Some in Hws as [_ <-]. done.
Qed.

(** On a well-formed graph [solve] raises nothing: it returns an
    assignment or [None]. *)
Theorem solve_raises_nothing d :
  well_formed cw → dom d = variables cw → ∃ o, result (solve cw d) = Ret o.
Proof.
  intros Hwf Hdom.
  pose proof (solve_final_domains_node_consistent cw d) as [Hdom2 Hnode2].
  rewrite solve_final_domains in Hdom2, Hnode2. unfold solve.
  pose proof (ac3_returns cw None (enforce_node_consistency d)) as Hfuel.
  assert (∀ e, (ac3 cw None (enforce_node_consistency d)).1 ≠ Raise e) as Hraise.
  { intros e. unfold ac3. apply ac3_loop_raises_nothing; [done|..].
    - by rewrite enforce_node_consistency_dom.
    - apply enforce_node_consistency_node_consistent.
    - apply Forall_forall. intros [x y] Hin. rewrite elem_of_reverse in Hin.
      apply initial_arcs_elem_of in Hin as [Hx Hy]. simpl.
      rewrite enforce_node_consistency_dom, Hdom in Hx.
      apply elem_of_filter in Hy as [[? _] ?]. auto. }
  destruct (ac3 cw None (enforce_node_consistency d)) as [[b|e|] d2];
    simpl in *; [|by destruct (Hraise e)|done].
  destruct (backtrack_fuel_returns cw (S (size (dom d2 ∖ dom (∅ : Assignment)))) d2 ∅)
    as (o & a' & Hbt); [done|congruence|done| |lia|].
  { by intros v w ?%lookup_empty_Some. }
  fold (backtrack cw d2 ∅) in Hbt. rewrite Hbt. eauto.
Qed.

End search.

(** ** The letter grid *)

Section grid.
Implicit Types (letters : Grid) (items : list (Var * string)).

Lemma get_Some_lt w i c : String.get i w = Some c → i < String.length w.
Proof.
  revert i. induction w as [|c' w IH]; intros i; simpl; [done|].
  destruct i; [lia|]. intros ?%IH. lia.
Qed.

Lemma write_letter_Ret letters variable word k letters' :
  write_letter letters variable word k = Ret letters' →
  ∃ c row,
    String.get k word = Some c ∧ letters !! (cell variable k).1 = Some row ∧
    (cell variable k).2 < length row ∧
    letters' = <[(cell variable k).1 := <[(cell variable k).2 := Some c]> row]> letters.
Proof.
  unfold write_letter. intros H.
  apply bind_Ret in H as (c & Hc%index_Ret & H).
  apply bind_Ret in H as (row & Hrow & H).
  apply bind_Ret in H as (row' & Hrow' & [= <-]).
  unfold list_index in Hrow. destruct (letters !! _) as [row0|] eqn:Hl; [|done].
  injection Hrow as ->. unfold setitem in Hrow'. case_decide; [|done].
  injection Hrow' as <-. by exists c, row.
Qed.

Lemma write_letter_outcome height width letters variable word k :
  shape height width letters →
  if decide (k < String.length word ∧
             (cell variable k).1 < height ∧ (cell variable k).2 < width)
  then ∃ letters', write_letter letters variable word k = Ret letters'
  else write_letter letters variable word k = Raise IndexError.
Proof.
  intros [Hlen Hrows]. unfold write_letter, index, list_index, setitem.
  case_decide as Hin.
  - destruct Hin as (Hk & Hi & Hj).
    destruct (get_is_Some word k Hk) as [c ->]. cbn.
    destruct (lookup_lt_is_Some_2 letters (cell variable k).1) as [row Hrow]; [lia|].
    rewrite Hrow. cbn.
    rewrite Forall_forall in Hrows. rewrite (Hrows row) by by eapply list_elem_of_lookup_2.
    rewrite decide_True by done. cbn. eauto.
  - destruct (String.get k word) as [c|] eqn:Hc; cbn; [|done].
    apply get_Some_lt in Hc.
    destruct (letters !! (cell variable k).1) as [row|] eqn:Hrow; cbn; [|done].
    apply lookup_lt_Some in Hrow as Hi.
    rewrite Forall_forall in Hrows. rewrite (Hrows row) by by eapply list_elem_of_lookup_2.
    rewrite decide_False; [done|]. intros ?. apply Hin. repeat split; [done|lia|done].
Qed.

Lemma write_letter_shape height width letters variable word k letters' :
  shape height width letters →
  write_letter letters variable word k = Ret letters' →
  shape height width letters'.
Proof.
  intros [Hlen Hrows] (c & row & _ & Hrow & _ & ->)%write_letter_Ret. split.
  - by rewrite length_insert.
  - apply Forall_insert; [done|]. rewrite length_insert.
    rewrite Forall_forall in Hrows. by eapply Hrows, list_elem_of_lookup_2.
Qed.

Lemma write_letter_lookup letters variable word k letters' i j :
  write_letter letters variable word k = Ret letters' →
  grid_lookup letters' i j =
    if decide (cell variable k = (i, j))
    then Some (String.get k word) else grid_lookup letters i j.
Proof.
  intros (c & row & Hc & Hrow & Hj & ->)%write_letter_Ret. unfold grid_lookup.
  apply lookup_lt_Some in Hrow as Hi. rewrite Hc.
  destruct (cell variable k) as [i0 j0]. simpl in *.
  destruct (decide (i0 = i)) as [->|Hne].
  - rewrite list_lookup_insert_eq by done. simpl.
    destruct (decide (j0 = j)) as [->|Hnej].
    + rewrite decide_True by done. by rewrite list_lookup_insert_eq.
    + rewrite decide_False by congruence. rewrite Hrow. simpl.
      by rewrite list_lookup_insert_ne.
  - rewrite decide_False by congruence. by rewrite list_lookup_insert_ne.
Qed.

Lemma write_word_shape height width variable word ks letters letters' :
  shape height width letters →
  write_word letters variable word ks = Ret letters' →
  shape height width letters'.
Proof.
  revert letters. induction ks as [|k ks IH]; intros letters Hshape H; simpl in H.
  { by injection H as <-. }
  apply bind_Ret in H as (l1 & H1 & H). eapply IH; [|done].
  by eapply write_letter_shape.
Qed.

Lemma write_words_shape height width items letters letters' :
  shape height width letters →
  write_words letters items = Ret letters' →
  shape height width letters'.
Proof.
  revert letters. induction items as [|[v word] items IH]; intros letters Hshape H;
    simpl in H.
  { by injection H as <-. }
  apply bind_Ret in H as (l1 & H1 & H). eapply IH; [|done].
  by eapply write_word_shape.
Qed.

Lemma shape_replicate height width :
  shape height width (replicate height (replicate width None)).
Proof.
  split; [by rewrite length_replicate|]. apply Forall_replicate.
  by rewrite length_replicate.
Qed.

Lemma write_word_outcome height width variable word ks letters :
  shape height width letters →
  (∀ k, k ∈ ks → k < String.length word) →
  let inside k := (cell variable k).1 < height ∧ (cell variable k).2 < width in
  (Forall inside ks → ∃ letters', write_word letters variable word ks = Ret letters') ∧
  (¬ Forall inside ks → write_word letters variable word ks = Raise IndexError).
Proof.
  intros Hshape Hks inside. revert letters Hshape.
  induction ks as [|k ks IH]; intros letters Hshape; simpl.
  { split; [eauto|]. intros Hno. destruct Hno. constructor. }
  pose proof (write_letter_outcome height width letters variable word k Hshape) as Hk.
  case_decide as Hin1.
  - destruct Hk as [l1 Hl1]. rewrite Hl1. simpl.
    eapply write_letter_shape in Hl1 as Hshape1; [|done].
    destruct (IH (λ k' Hk', Hks k' (list_elem_of_further _ _ _ Hk')) l1 Hshape1)
      as [IH1 IH2].
    split.
    + intros Hall. apply IH1. by inversion Hall.
    + intros Hno. apply IH2. intros Hall. apply Hno. constructor; [apply Hin1|done].
  - rewrite Hk. simpl. split; [|done]. intros Hall. destruct Hin1.
    split; [apply Hks; by left|]. by inversion Hall.
Qed.

Lemma write_words_outcome height width items letters :
  shape height width letters →
  (in_grid height width items → ∃ letters', write_words letters items = Ret letters') ∧
  (¬ in_grid height width items → write_words letters items = Raise IndexError).
Proof.
  revert letters. induction items as [|[v word] items IH]; intros letters Hshape; simpl.
  { split; [eauto|]. intros Hno. destruct Hno. by intros v w k ?%elem_of_nil. }
  destruct (write_word_outcome height width v word (seq 0 (String.length word))
              letters Hshape) as [Hword1 Hword2].
  { intros k ?%elem_of_seq. lia. }
  destruct (decide (Forall (λ k, (cell v k).1 < height ∧ (cell v k).2 < width)
                      (seq 0 (String.length word)))) as [Hin1|Hin1].
  - destruct (Hword1 Hin1) as [l1 Hl1]. rewrite Hl1. simpl.
    eapply write_word_shape in Hl1 as Hshape1; [|done].
    destruct (IH l1 Hshape1) as [IH1 IH2]. rewrite Forall_forall in Hin1. split.
    + intros Hin. apply IH1. intros v' w' k ?. apply Hin. by right.
    + intros Hno. apply IH2. intros Hin. apply Hno.
      intros v' w' k [[= -> ->]|?]%elem_of_cons Hk; [|by eapply Hin].
      apply Hin1, elem_of_seq. lia.
  - rewrite (Hword2 Hin1). simpl. split; [|done]. intros Hin. destruct Hin1.
    apply Forall_forall. intros k Hk%elem_of_seq. apply (Hin v word k); [by left|lia].
Qed.

Lemma write_word_cell variable word ks letters letters' i j :
  write_word letters variable word ks = Ret letters' →
  (grid_lookup letters' i j = grid_lookup letters i j ∧
   ∀ k, k ∈ ks → cell variable k ≠ (i, j)) ∨
  (∃ k c, k ∈ ks ∧ String.get k word = Some c ∧ cell variable k = (i, j) ∧
          grid_lookup letters' i j = Some (Some c)).
Proof.
  revert letters. induction ks as [|k ks IH]; intros letters H; simpl in H.
  { injection H as <-. left. split; [done|]. by intros k ?%elem_of_nil. }
  apply bind_Ret in H as (l1 & H1 & H).
  pose proof (write_letter_lookup _ _ _ _ _ i j H1) as Hl1.
  apply write_letter_Ret in H1 as (c & _ & Hc & _).
  destruct (IH _ H) as [[Heq Hno]|(k' & c' & Hk' & Hc' & Hcell & Hl)].
  - rewrite Heq, Hl1. case_decide as Hcell.
    + right. exists k, c. rewrite Hc. repeat split; [by left|done..].
    + left. split; [done|]. intros k' [->|?]%elem_of_cons; [done|by apply Hno].
  - right. exists k', c'. repeat split; [by right|done..].
Qed.

Lemma write_words_cell items letters letters' i j :
  write_words letters items = Ret letters' →
  (grid_lookup letters' i j = grid_lookup letters i j ∧
   ∀ variable word k, (variable, word) ∈ items → k < String.length word →
     cell variable k ≠ (i, j)) ∨
  (∃ c, written items i j c ∧ grid_lookup letters' i j = Some (Some c)).
Proof.
  revert letters. induction items as [|[v word] items IH]; intros letters H; simpl in H.
  { injection H as <-. left. split; [done|]. by intros v w k ?%elem_of_nil. }
  apply bind_Ret in H as (l1 & H1 & H).
  destruct (IH _ H) as [[Heq Hno]|(c & (v' & w' & k & Hin & Hc & Hcell) & Hl)].
  - destruct (write_word_cell _ _ _ _ _ i j H1) as [[Heq1 Hno1]|(k & c & Hk & Hc & Hcell & Hl)].
    + left. split; [congruence|].
      intros v' w' k [[= -> ->]|?]%elem_of_cons Hk; [|by eapply Hno].
      apply Hno1, elem_of_seq. lia.
    + right. exists c. split; [|congruence]. exists v, word, k.
      split; [by left|done].
  - right. exists c. split; [|done]. exists v', w', k. split; [by right|done].
Qed.

Lemma grid_lookup_replicate height width i j :
  i < height → j < width →
  grid_lookup (replicate height (replicate width None)) i j = Some None.
Proof.
  intros Hi Hj. unfold grid_lookup. rewrite lookup_replicate_2 by done. simpl.
  by rewrite lookup_replicate_2.
Qed.

(** The grid [letter_grid] returns has [height] rows of [width] cells,
    whatever was written into it. *)
Theorem letter_grid_shape height width items letters :
  letter_grid height width items = Ret letters →
  length letters = height ∧ Forall (λ row, length row = width) letters.
Proof. apply write_words_shape, shape_replicate. Qed.

(** [letter_grid] returns a grid when every letter of every word of the
    assignment falls on a cell of the grid, and raises [IndexError]
    otherwise: a word that leaves the grid is not cut off. *)
Theorem letter_grid_outcome height width items :
  (in_grid height width items → ∃ letters, letter_grid height width items = Ret letters) ∧
  (¬ in_grid height width items → letter_grid height width items = Raise IndexError).
Proof. apply write_words_outcome, shape_replicate. Qed.

(** In the grid [letter_grid] returns, a cell that no word of the
    assignment covers holds [None], and a cell that is covered holds a
    letter that one of the covering words has at that place. *)
Theorem letter_grid_cells height width items letters i j :
  letter_grid height width items = Ret letters → i < height → j < width →
  ∃ o, grid_lookup letters i j = Some o ∧
    match o with
    | Some c => written items i j c
    | None => ∀ variable word k, (variable, word) ∈ items →
                k < String.length word → cell variable k ≠ (i, j)
    end.
Proof.
  intros H Hi Hj.
  destruct (write_words_cell _ _ _ i j H) as [[Heq Hno]|(c & Hc & Hl)].
  - exists None. split; [|done]. by rewrite Heq, grid_lookup_replicate.
  - by exists (Some c).
Qed.

(** When the words of the assignment agree wherever two of them write on
    the same cell, every word can be read back from the grid: the cell of
    its [k]-th letter holds that letter. *)
Theorem letter_grid_reads_back height width items letters :
  letter_grid height width items = Ret letters →
  (∀ i j c1 c2, written items i j c1 → written items i j c2 → c1 = c2) →
  ∀ variable word k c, (variable, word) ∈ items → String.get k word = Some c →
    grid_lookup letters (cell variable k).1 (cell variable k).2 = Some (Some c).
Proof.
  intros H Hagree v word k c Hin Hc.
  destruct (write_words_cell _ _ _ (cell v k).1 (cell v k).2 H)
    as [[_ Hno]|(c' & Hc' & Hl)].
  - destruct (Hno v word k Hin); [by eapply get_Some_lt|by destruct (cell v k)].
  - rewrite Hl. do 2 f_equal. eapply Hagree; [done|].
    exists v, word, k. by destruct (cell v k).
Qed.

End grid.

(** ** The further properties on the example puzzles *)

Section further_examples.

Lemma corner_mirrored x y vocabulary : mirrored (corner_crossword x y vocabulary).
Proof.
  intros v1 v2 i j _ _ _. simpl. unfold corner.
  case_decide as Hc; [|done]. intros [= <- <-]. rewrite decide_True; [done|tauto].
Qed.

Lemma corner_domains_dom vocabulary :
  dom (enforce_node_consistency (new_domains (corner_puzzle vocabulary))) =
  variables (corner_puzzle vocabulary).
Proof. rewrite enforce_node_consistency_dom. apply new_domains_dom. Qed.

(** *** Propagation *)

Lemma ac3_iterations_bounded_witness :
  let p := corner_puzzle ["CAT"; "COW"; "DOG"] in
  let d := enforce_node_consistency (new_domains p) in
  let stack := reverse (initial_arcs p d) in
  (ac3_loop p 20 stack d).1 ≠ OutOfFuel ∧
  ∀ fuel', 20 ≤ fuel' → ac3_loop p fuel' stack d = ac3_loop p 20 stack d.
Proof.
  intros p d stack. apply (ac3_iterations_bounded p 20 stack d).
  vm_compute. lia.
Defined.

Lemma ac3_enforces_arc_consistency_witness :
  let p := corner_puzzle ["CAT"; "COW"; "DOG"] in
  let d := enforce_node_consistency (new_domains p) in
  (ac3 p None d).1 = Ret true ∧ arc_consistent p (ac3 p None d).2.
Proof.
  intros p d. split; [vm_compute; reflexivity|].
  apply (ac3_enforces_arc_consistency p d).
  - apply corner_mirrored.
  - apply corner_domains_dom.
  - vm_compute. reflexivity.
Defined.

Lemma ac3_keeps_solutions_witness :
  let p := corner_puzzle ["CAT"; "COW"; "DOG"] in
  let d := enforce_node_consistency (new_domains p) in
  let s : Assignment := <[across3 := "CAT"]> {[down3 := "COW"]} in
  solution p d s ↔ solution p (ac3 p None d).2 s.
Proof.
  intros p d s. apply (ac3_keeps_solutions p d true). vm_compute. reflexivity.
Defined.

Lemma ac3_raises_nothing_witness :
  let p := corner_puzzle ["CAT"; "COW"; "DOG"] in
  let d := enforce_node_consistency (new_domains p) in
  ∃ b d', ac3 p None d = (Ret b, d').
Proof.
  intros p d. apply (ac3_raises_nothing p d).
  - apply corner_well_formed; simpl; lia.
  - apply corner_domains_dom.
  - apply enforce_node_consistency_node_consistent.
Defined.

Lemma ac3_failure_empties_a_domain_witness :
  let d := enforce_node_consistency (new_domains mismatch_puzzle) in
  ∃ x xs, d !! x = Some xs ∧ xs ≠ [] ∧
          (ac3 mismatch_puzzle None d).2 !! x = Some [].
Proof.
  intros d. apply (ac3_failure_empties_a_domain mismatch_puzzle None d).
  vm_compute. reflexivity.
Defined.

Lemma revise_twice_witness :
  let p := corner_puzzle [] in
  let d : Domains := <[across3 := ["CAT"; "DOG"]]> {[down3 := ["COW"]]} in
  let d' : Domains := <[across3 := ["CAT"]]> {[down3 := ["COW"]]} in
  revise p across3 down3 d = (Ret true, d') ∧
  revise p across3 down3 d' = (Ret false, d').
Proof.
  intros p d d'.
  assert (revise p across3 down3 d = (Ret true, d')) as Hrevise
    by (vm_compute; reflexivity).
  split; [exact Hrevise|].
  exact (revise_twice p across3 down3 d true d' ltac:(discriminate) Hrevise).
Defined.

Lemma revise_raises_witness :
  let p := corner_puzzle [] in
  revise p across3 down3 ∅ = (Raise KeyError, ∅) ∧
  ((∅ : Domains) !! across3 = None ∨ (∅ : Domains) !! down3 = None).
Proof.
  intros p.
  assert (revise p across3 down3 ∅ = (Raise KeyError, ∅)) as Hrun
    by (vm_compute; reflexivity).
  split; [exact Hrun|].
  destruct (revise_raises p across3 down3 ∅ KeyError ∅ Hrun) as [_ [[_ H]|H]];
    [exact H|discriminate H].
Defined.

Lemma revise_against_empty_domain_witness :
  let p := corner_puzzle [] in
  let d : Domains := <[across3 := ["CAT"]]> {[down3 := []]} in
  revise p across3 down3 d = (Ret true, <[across3 := []]> d).
Proof.
  intros p d.
  exact (revise_against_empty_domain p across3 down3 d 0 0 ["CAT"]
           eq_refl eq_refl eq_refl).
Defined.

(** *** Search *)

Lemma consistent_decides_witness :
  let p := corner_puzzle [] in
  consistent p (<[across3 := "CAT"]> {[down3 := "COW"]}) = Ret true ∧
  satisfies p (<[across3 := "CAT"]> {[down3 := "COW"]}).
Proof.
  intros p.
  assert (consistent p (<[across3 := "CAT"]> {[down3 := "COW"]}) = Ret true) as Hrun
    by (vm_compute; reflexivity).
  split; [exact Hrun|].
  apply (proj1 (consistent_decides p _) true Hrun). reflexivity.
Defined.

Lemma order_domain_values_sorted_witness :
  let p := corner_puzzle [] in
  let d : Domains :=
    <[across3 := ["DOG"; "CAT"; "COW"]]> {[down3 := ["CAT"; "COW"; "DOG"]]} in
  order_domain_values p d across3 ∅ = Ret ["CAT"; "COW"; "DOG"] ∧
  ∃ ws counts,
    d !! across3 = Some ws ∧ ["CAT"; "COW"; "DOG"] ≡ₚ ws ∧
    Forall2 (λ word n,
      count_removed_in_neighbors p d across3 word
        (neighbors p across3 ∖ dom (∅ : Assignment)) = Ret n)
      ["CAT"; "COW"; "DOG"] counts ∧
    StronglySorted le counts.
Proof.
  intros p d.
  assert (order_domain_values p d across3 ∅ = Ret ["CAT"; "COW"; "DOG"]) as Hrun
    by (vm_compute; reflexivity).
  split; [exact Hrun|].
  exact (order_domain_values_sorted p d across3 ∅ _ Hrun).
Defined.

Lemma corner_neighbors vocabulary :
  neighbors (corner_puzzle vocabulary) across3 ⊆ dom ({[down3 := "COW"]} : Assignment).
Proof.
  intros v [[Hne _] Hv]%elem_of_filter. rewrite dom_singleton, elem_of_singleton.
  simpl in Hv. apply elem_of_union in Hv.
  rewrite !elem_of_singleton in Hv. by destruct Hv.
Qed.

Lemma order_domain_values_without_neighbors_witness :
  let p := corner_puzzle [] in
  let d : Domains :=
    <[across3 := ["DOG"; "CAT"; "COW"]]> {[down3 := ["CAT"; "COW"; "DOG"]]} in
  order_domain_values p d across3 {[down3 := "COW"]} = Ret ["DOG"; "CAT"; "COW"].
Proof.
  intros p d.
  exact (order_domain_values_without_neighbors p d across3 {[down3 := "COW"]}
           ["DOG"; "CAT"; "COW"] (corner_neighbors []) eq_refl).
Defined.

Lemma count_removed_in_neighbors_counts_witness :
  let p := corner_puzzle [] in
  let d : Domains :=
    <[across3 := ["DOG"; "CAT"; "COW"]]> {[down3 := ["CAT"; "COW"; "DOG"]]} in
  count_removed_in_neighbors p d across3 "CAT" {[down3]} = Ret 2 ∧
  2 = sum_list_with
        (λ neighbor,
           length (filter (ruled_out (overlaps p across3 neighbor) "CAT")
                     (default [] (d !! neighbor))))
        (elements ({[down3]} : gset Var)).
Proof.
  intros p d.
  assert (count_removed_in_neighbors p d across3 "CAT" {[down3]} = Ret 2) as Hrun
    by (vm_compute; reflexivity).
  split; [exact Hrun|].
  exact (count_removed_in_neighbors_counts p d across3 "CAT" {[down3]} 2 Hrun).
Defined.

Lemma backtrack_success_extends_witness :
  let p := corner_puzzle ["CAT"; "COW"; "DOG"] in
  let d := enforce_node_consistency (new_domains p) in
  let a : Assignment := {[down3 := "COW"]} in
  let r : Assignment := <[across3 := "CAT"]> {[down3 := "COW"]} in
  backtrack_fuel p 2 d a = (Ret (Some r), r) ∧
  a ⊆ r ∧ dom d ⊆ dom r ∧ (r = a ∨ satisfies p r).
Proof.
  intros p d a r.
  assert (backtrack_fuel p 2 d a = (Ret (Some r), r)) as Hrun
    by (vm_compute; reflexivity).
  split; [exact Hrun|].
  destruct (backtrack_success_extends p 2 d a r r Hrun) as (_ & ? & ? & ? & _).
  repeat split; assumption.
Defined.

Lemma backtrack_failure_exhaustive_witness :
  let d := enforce_node_consistency (new_domains mismatch_puzzle) in
  (backtrack mismatch_puzzle d ∅).1 = Ret None ∧
  ¬ ∃ s, solution mismatch_puzzle d s ∧ ∅ ⊆ s.
Proof.
  intros d. split; [vm_compute; reflexivity|].
  apply (backtrack_failure_exhaustive mismatch_puzzle d ∅ ∅).
  vm_compute. reflexivity.
Defined.

Lemma solve_failure_sound_witness :
  result (solve mismatch_puzzle (new_domains mismatch_puzzle)) = Ret None ∧
  ¬ ∃ s, solution mismatch_puzzle (new_domains mismatch_puzzle) s.
Proof.
  assert (result (solve mismatch_puzzle (new_domains mismatch_puzzle)) = Ret None)
    as Hrun by (vm_compute; reflexivity).
  split; [exact Hrun|].
  exact (solve_failure_sound mismatch_puzzle (new_domains mismatch_puzzle) Hrun).
Defined.

Lemma solve_uses_vocabulary_witness :
  let p := corner_puzzle ["CAT"; "COW"; "DOG"] in
  let r : Assignment := <[across3 := "CAT"]> {[down3 := "COW"]} in
  result (solve p (new_domains p)) = Ret (Some r) ∧
  dom r = variables p ∧
  ∀ v w, r !! v = Some w → w ∈ words p ∧ String.length w = var_length v.
Proof.
  intros p r.
  assert (result (solve p (new_domains p)) = Ret (Some r)) as Hrun
    by (vm_compute; reflexivity).
  split; [exact Hrun|].
  exact (solve_uses_vocabulary p r Hrun).
Defined.

Lemma solve_raises_nothing_witness :
  let p := corner_puzzle ["CAT"; "COW"; "DOG"] in
  ∃ o, result (solve p (new_domains p)) = Ret o.
Proof.
  intros p. apply (solve_raises_nothing p (new_domains p)).
  - apply corner_well_formed; simpl; lia.
  - apply new_domains_dom.
Defined.

Lemma solve_complete_witness :
  let p := corner_puzzle ["CAT"; "COW"; "DOG"] in
  let d := enforce_node_consistency (new_domains p) in
  ∃ r, result (solve p d) = Ret (Some r) ∧ solution p d r.
Proof.
  intros p d. apply (solve_complete p d).
  - apply corner_well_formed; simpl; lia.
  - apply corner_domains_dom.
  - eexists. apply corner_solution.
Defined.

(** *** The letter grid *)

Lemma corner_items_in_grid :
  in_grid 3 3 [(across3, "CAT"); (down3, "COW")].
Proof.
  intros v word k Hin Hk. rewrite !elem_of_cons, elem_of_nil in Hin.
  destruct Hin as [[= -> ->]|[[= -> ->]|[]]];
    do 3 (destruct k as [|k]; [vm_compute; lia|]); simpl in Hk; lia.
Qed.

Lemma corner_items_agree i j c1 c2 :
  written [(across3, "CAT"); (down3, "COW")] i j c1 →
  written [(across3, "CAT"); (down3, "COW")] i j c2 → c1 = c2.
Proof.
  intros (v1 & w1 & k1 & Hin1 & Hc1 & Hcell1) (v2 & w2 & k2 & Hin2 & Hc2 & Hcell2).
  rewrite !elem_of_cons, elem_of_nil in Hin1, Hin2.
  destruct Hin1 as [[= -> ->]|[[= -> ->]|[]]];
    destruct k1 as [|[|[|k1]]]; simpl in Hc1; try discriminate Hc1;
    destruct Hin2 as [[= -> ->]|[[= -> ->]|[]]];
    destruct k2 as [|[|[|k2]]]; simpl in Hc2; try discriminate Hc2;
    vm_compute in Hcell1, Hcell2; congruence.
Qed.

Lemma letter_grid_shape_witness :
  let letters : Grid :=
    [[Some "C"; Some "A"; Some "T"]; [Some "O"; None; None]; [Some "W"; None; None]]%char in
  letter_grid 3 3 [(across3, "CAT"); (down3, "COW")] = Ret letters ∧
  length letters = 3 ∧ Forall (λ row, length row = 3) letters.
Proof.
  intros letters.
  assert (letter_grid 3 3 [(across3, "CAT"); (down3, "COW")] = Ret letters) as Hrun
    by (vm_compute; reflexivity).
  split; [exact Hrun|].
  exact (letter_grid_shape 3 3 _ letters Hrun).
Defined.

Lemma letter_grid_outcome_witness :
  (∃ letters, letter_grid 3 3 [(across3, "CAT"); (down3, "COW")] = Ret letters) ∧
  letter_grid 3 3 [(across3, "CAT"); (down4, "DOGS")] = Raise IndexError.
Proof.
  split.
  - apply (proj1 (letter_grid_outcome 3 3 _)), corner_items_in_grid.
  - vm_compute. reflexivity.
Defined.

Lemma letter_grid_cells_witness :
  let items := [(across3, "CAT"); (down3, "COW")] in
  let letters : Grid :=
    [[Some "C"; Some "A"; Some "T"]; [Some "O"; None; None]; [Some "W"; None; None]]%char in
  ∃ o, grid_lookup letters 0 1 = Some o ∧
    match o with
    | Some c => written items 0 1 c
    | None => ∀ variable word k, (variable, word) ∈ items →
                k < String.length word → cell variable k ≠ (0, 1)
    end.
Proof.
  intros items letters.
  apply (letter_grid_cells 3 3 items letters 0 1); [vm_compute; reflexivity|lia..].
Defined.

Lemma letter_grid_reads_back_witness :
  let items := [(across3, "CAT"); (down3, "COW")] in
  let letters : Grid :=
    [[Some "C"; Some "A"; Some "T"]; [Some "O"; None; None]; [Some "W"; None; None]]%char in
  grid_lookup letters (cell down3 2).1 (cell down3 2).2 = Some (Some "W"%char).
Proof.
  intros items letters.
  apply (letter_grid_reads_back 3 3 items letters) with (word := "COW").
  - vm_compute. reflexivity.
  - apply corner_items_agree.
  - apply elem_of_cons. right. apply elem_of_cons. by left.
  - reflexivity.
Defined.

End further_examples.
